(** * Address book service (main.py): a shallow embedding and its properties

    The service is five FastAPI handlers over one SQLAlchemy table,
    [addresses], stored in SQLite.  The embedding keeps the layers of the
    source apart:

    - the Python values and the two data classes ([AddressCreate], the
      validated request body, and [Address], the ORM-mapped object);
    - the unit of work of a SQLAlchemy [Session]: objects are tracked by
      reference, [add] and [delete] only mark them, and nothing reaches the
      table before [commit] flushes;
    - the handlers, written in a state-and-exception monad so that each one
      reads statement by statement like its Python body;
    - the routes, which run a handler in a fresh request frame after the
      framework has validated the body, and serialise what it returns.

    Two things the store does to what the handlers give it are part of the
    model: a float column keeps NaN as NULL and negative zero as zero, and
    the driver refuses an integer outside the signed 64-bit range before
    any statement is sent. *)

From stdpp Require Import base numbers strings list.
From Stdlib Require Import PrimFloat.

Local Open Scope string_scope.
Local Open Scope list_scope.
Local Open Scope Z_scope.

(** ** Python values *)

Inductive PyVal :=
| PyNone
| PyInt (z : Z)
| PyFloat (f : float)
| PyStr (s : string).

(** Python's [==] on the values an attribute holds: a NaN equals nothing,
    itself included, and the two zeros are equal.  An attribute of this
    service never holds an integer where it holds a float, so the mixed
    comparisons are left out. *)
Definition py_eq (x y : PyVal) : bool :=
  match x, y with
  | PyNone, PyNone => true
  | PyInt a, PyInt b => Z.eqb a b
  | PyFloat a, PyFloat b => PrimFloat.eqb a b
  | PyStr a, PyStr b => String.eqb a b
  | _, _ => false
  end.

(** ** class AddressCreate(BaseModel) *)

Module AddressCreate.
Record t := mk {
  latitude : float;
  longitude : float;
  name : string;
  address : string;
  city : string;
  state : string;
  zip_code : string
}.

(** [address.dict()]: the fields in declaration order. *)
Definition dict (a : t) : list (string * PyVal) :=
    [ ("latitude", PyFloat (latitude a));
      ("longitude", PyFloat (longitude a));
      ("name", PyStr (name a));
      ("address", PyStr (address a));
      ("city", PyStr (city a));
      ("state", PyStr (state a));
      ("zip_code", PyStr (zip_code a)) ].

(** The coordinates are numbers: neither a NaN nor an infinity. *)
Definition storable (a : t) : bool :=
  PrimFloat.is_finite (latitude a) && PrimFloat.is_finite (longitude a).

(** A finite float as the store gives it back: either zero comes back as
    zero, every other number as it is. *)
Definition stored_float (f : float) : float :=
  if PrimFloat.is_zero f then PrimFloat.zero else f.

(** The input as the store gives it back. *)
Definition stored (a : t) : t :=
  mk (stored_float (latitude a)) (stored_float (longitude a))
     (name a) (address a) (city a) (state a) (zip_code a).
End AddressCreate.

(** ** class Address(Base)

    An instance carries one attribute per column.  Python does not type the
    attributes, and every one of them is [None] until it is set. *)

Module Address.
Record t := mk {
  id : PyVal;
  latitude : PyVal;
  longitude : PyVal;
  name : PyVal;
  address : PyVal;
  city : PyVal;
  state : PyVal;
  zip_code : PyVal
}.

Definition blank : t :=
    mk PyNone PyNone PyNone PyNone PyNone PyNone PyNone PyNone.

(** [setattr(obj, key, value)] on a mapped attribute.  A key that names no
      column would become a plain Python attribute, which no column sees. *)
Definition setattr (o : t) (key : string) (v : PyVal) : t :=
    if String.eqb key "id" then
      mk v (latitude o) (longitude o) (name o) (address o) (city o) (state o) (zip_code o)
    else if String.eqb key "latitude" then
      mk (id o) v (longitude o) (name o) (address o) (city o) (state o) (zip_code o)
    else if String.eqb key "longitude" then
      mk (id o) (latitude o) v (name o) (address o) (city o) (state o) (zip_code o)
    else if String.eqb key "name" then
      mk (id o) (latitude o) (longitude o) v (address o) (city o) (state o) (zip_code o)
    else if String.eqb key "address" then
      mk (id o) (latitude o) (longitude o) (name o) v (city o) (state o) (zip_code o)
    else if String.eqb key "city" then
      mk (id o) (latitude o) (longitude o) (name o) (address o) v (state o) (zip_code o)
    else if String.eqb key "state" then
      mk (id o) (latitude o) (longitude o) (name o) (address o) (city o) v (zip_code o)
    else if String.eqb key "zip_code" then
      mk (id o) (latitude o) (longitude o) (name o) (address o) (city o) (state o) v
    else o.

(** [getattr(obj, key)] on a mapped attribute. *)
Definition getattr (o : t) (key : string) : PyVal :=
    if String.eqb key "id" then id o
    else if String.eqb key "latitude" then latitude o
    else if String.eqb key "longitude" then longitude o
    else if String.eqb key "name" then name o
    else if String.eqb key "address" then address o
    else if String.eqb key "city" then city o
    else if String.eqb key "state" then state o
    else if String.eqb key "zip_code" then zip_code o
    else PyNone.

Definition columns : list string :=
    ["id"; "latitude"; "longitude"; "name"; "address"; "city"; "state"; "zip_code"].

(** The attributes whose value is not [==] to the one that was loaded: the
    columns an UPDATE of the instance sets. *)
Definition changed (now loaded : t) : list string :=
    filter (fun key => py_eq (getattr now key) (getattr loaded key) = false) columns.

(** [for key, value in items: setattr(obj, key, value)], which is also how
      the declarative constructor fills a new instance from its keyword
      arguments. *)
Definition setattrs (o : t) (items : list (string * PyVal)) : t :=
    foldl (fun acc kv => setattr acc kv.1 kv.2) o items.

(** The row that holds the fields of [a] under primary key [pk]. *)
Definition of_fields (pk : Z) (a : AddressCreate.t) : t :=
    mk (PyInt pk)
       (PyFloat (AddressCreate.latitude a)) (PyFloat (AddressCreate.longitude a))
       (PyStr (AddressCreate.name a)) (PyStr (AddressCreate.address a))
       (PyStr (AddressCreate.city a)) (PyStr (AddressCreate.state a))
       (PyStr (AddressCreate.zip_code a)).
End Address.

(** ** The table [addresses] in SQLite

    The committed rows, in the order a full scan returns them (the rowid
    order).  [id] is an INTEGER PRIMARY KEY declared without AUTOINCREMENT,
    so an insert that gives no id takes one more than the largest id in the
    table, and 1 in an empty table (a table whose largest id is the largest
    64-bit integer is outside the model).  Failures of the connection are
    not part of this model. *)

Abbreviation Table := (list Address.t).

Definition has_id (pk : Z) (r : Address.t) : bool :=
  match Address.id r with
  | PyInt k => Z.eqb k pk
  | _ => false
  end.

Definition rowid (r : Address.t) : Z :=
  match Address.id r with
  | PyInt k => k
  | _ => 0
  end.

Definition max_rowid (t : Table) : option Z :=
  foldr (fun r m => match m with
                    | None => Some (rowid r)
                    | Some k => Some (Z.max (rowid r) k)
                    end) None t.

Definition next_rowid (t : Table) : Z :=
  match max_rowid t with
  | None => 1
  | Some k => k + 1
  end.

(** An SQLite INTEGER is a signed 64-bit integer.  The driver raises
    OverflowError on a Python integer outside that range when it binds the
    parameters, before the statement is sent. *)
Definition in_int64 (z : Z) : bool :=
  Z.leb (- 2 ^ 63) z && Z.ltb z (2 ^ 63).

(** What a column keeps of a value.  A REAL column keeps a NaN as NULL and
    either zero as zero; every other value comes back as it was given. *)
Definition sqlite_value (v : PyVal) : PyVal :=
  match v with
  | PyFloat f =>
      if PrimFloat.is_nan f then PyNone
      else if PrimFloat.is_zero f then PyFloat PrimFloat.zero
      else PyFloat f
  | _ => v
  end.

Definition sqlite_row (row : Address.t) : Address.t :=
  Address.mk (Address.id row)
             (sqlite_value (Address.latitude row)) (sqlite_value (Address.longitude row))
             (sqlite_value (Address.name row)) (sqlite_value (Address.address row))
             (sqlite_value (Address.city row)) (sqlite_value (Address.state row))
             (sqlite_value (Address.zip_code row)).

(** The statements the ORM sends.  A lookup by primary key takes the first
    matching row ([.first()] adds LIMIT 1). *)

Definition sql_select_by_id (pk : Z) (t : Table) : option Address.t :=
  head (filter (fun r => has_id pk r = true) t).

(** SELECT ... LIMIT limit OFFSET skip.  SQLite reads a negative OFFSET as 0
    and a negative LIMIT as no bound at all. *)
Definition sql_offset (skip : Z) (t : Table) : Table :=
  if Z.ltb skip 0 then t else drop (Z.to_nat skip) t.

Definition sql_limit (limit : Z) (t : Table) : Table :=
  if Z.ltb limit 0 then t else take (Z.to_nat limit) t.

Definition sql_select_page (skip limit : Z) (t : Table) : Table :=
  sql_limit limit (sql_offset skip t).

(** INSERT: a row that comes without an id gets the next rowid; the new row
    has the largest id, so a scan meets it last.  The result is the id of the
    new row (the driver's [lastrowid]) and the table. *)
Definition sql_insert (row : Address.t) (t : Table) : Z * Table :=
  let pk :=
    match Address.id row with
    | PyInt k => k
    | _ => next_rowid t
    end in
  (pk, t ++ [sqlite_row (Address.setattr row "id" (PyInt pk))]).

(** UPDATE addresses SET ... WHERE id = pk, with the values of [row].  The
    statement names the attributes that changed; the others hold what was
    loaded, and a row of the store is what the store keeps of itself, so the
    row afterwards is what the store keeps of [row]. *)
Definition sql_update (pk : Z) (row : Address.t) (t : Table) : Table :=
  (fun r => if has_id pk r then sqlite_row row else r) <$> t.

(** DELETE FROM addresses WHERE id = pk. *)
Definition sql_delete (pk : Z) (t : Table) : Table :=
  filter (fun r => has_id pk r = false) t.

(** ** The request frame

    A handler runs against the committed table and a frame of its own: the
    Python objects it holds (by reference), the sessions it made (by handle)
    and the trace of what it asked of the data layer. *)

Inductive Status := Pending | Persistent | Deleted.

(** An instance has its attributes and, beside them, the values that were
    loaded or last written, which tell at flush time what changed. *)
Record Instance := mkInstance {
  attrs : Address.t;
  committed : Address.t
}.

Record Session := mkSession {
  tracked : list (nat * Status);
  active : bool
}.

Inductive Event :=
| Opened
| SELECT
| INSERT (pk : Z)
| UPDATE (pk : Z)
| DELETE (pk : Z)
| COMMIT
| Closed.

Record Env := mkEnv {
  addresses : Table;
  heap : list Instance;
  sessions : list Session;
  trace : list Event
}.

Definition set_addresses (t : Table) (e : Env) : Env :=
  mkEnv t (heap e) (sessions e) (trace e).
Definition set_heap (h : list Instance) (e : Env) : Env :=
  mkEnv (addresses e) h (sessions e) (trace e).
Definition set_sessions (s : list Session) (e : Env) : Env :=
  mkEnv (addresses e) (heap e) s (trace e).
Definition log (ev : Event) (e : Env) : Env :=
  mkEnv (addresses e) (heap e) (sessions e) (trace e ++ [ev]).

(** ** Exceptions and the handler monad *)

Inductive Exception :=
| HTTPException (status_code : Z) (detail : string)
| RequestValidationError (loc : list string)
| ResponseValidationError
| InvalidRequestError (msg : string)
| OverflowError (msg : string)
| ValueError (msg : string).

Inductive Outcome (A : Type) :=
| Returned (a : A)
| Raised (exn : Exception).
Arguments Returned {A} a.
Arguments Raised {A} exn.

Definition M (A : Type) : Type := Env -> Outcome A * Env.

Definition ret {A} (a : A) : M A := fun e => (Returned a, e).

Definition raise {A} (exn : Exception) : M A := fun e => (Raised exn, e).

Definition bind {A B} (m : M A) (k : A -> M B) : M B :=
  fun e =>
    match m e with
    | (Returned a, e') => k a e'
    | (Raised exn, e') => (Raised exn, e')
    end.

#[export] Instance M_ret : MRet M := @ret.
#[export] Instance M_bind : MBind M := fun A B k m => bind m k.

Definition modify (f : Env -> Env) : M unit := fun e => (Returned tt, f e).

Definition table : M Table := fun e => (Returned (addresses e), e).

(** [for x in xs: body(x)] *)
Fixpoint for_each {A} (xs : list A) (body : A -> M unit) : M unit :=
  match xs with
  | [] => ret tt
  | x :: rest => body x ;; for_each rest body
  end.

(** ** Python objects of the frame *)

Definition alloc (o : Instance) : M nat :=
  fun e => (Returned (length (heap e)), set_heap (heap e ++ [o]) e).

Definition get_instance (ref : nat) : M Instance :=
  fun e =>
    match heap e !! ref with
    | Some o => (Returned o, e)
    | None => (Raised (InvalidRequestError "dangling reference"), e)
    end.

Definition load (ref : nat) : M Address.t :=
  o ← get_instance ref;
  ret (attrs o).

Definition store (ref : nat) (o : Instance) : M unit :=
  modify (fun e => set_heap (<[ref := o]> (heap e)) e).

(** [Address(...)] with keyword arguments: a new, untracked instance. *)
Definition new_Address (kwargs : list (string * PyVal)) : M nat :=
  alloc (mkInstance (Address.setattrs Address.blank kwargs) Address.blank).

(** [setattr(obj, key, value)] on an instance: the attribute takes the
    value; what was loaded stays beside it. *)
Definition setattr (ref : nat) (key : string) (v : PyVal) : M unit :=
  o ← get_instance ref;
  store ref (mkInstance (Address.setattr (attrs o) key v) (committed o)).

(** ** sessionmaker(autocommit=False, autoflush=False, bind=engine) *)

Definition SessionLocal : M nat :=
  fun e =>
    (Returned (length (sessions e)),
     log Opened (set_sessions (sessions e ++ [mkSession [] true]) e)).

Definition get_session (db : nat) : M Session :=
  fun e =>
    match sessions e !! db with
    | Some s => (Returned s, e)
    | None => (Raised (InvalidRequestError "no such session"), e)
    end.

Definition put_session (db : nat) (s : Session) : M unit :=
  modify (fun e => set_sessions (<[db := s]> (sessions e)) e).

Definition track (db : nat) (ref : nat) (st : Status) : M unit :=
  s ← get_session db;
  put_session db (mkSession (tracked s ++ [(ref, st)]) (active s)).

(** [db.add(obj)]: the instance is pending; no statement is sent. *)
Definition Session_add (db ref : nat) : M unit :=
  track db ref Pending.

(** [db.delete(obj)]: the instance is marked for deletion; no statement is
    sent until the session flushes. *)
Definition Session_delete (db ref : nat) : M unit :=
  s ← get_session db;
  put_session db
    (mkSession ((fun p => if Nat.eqb p.1 ref then (p.1, Deleted) else p) <$> tracked s)
               (active s)).

(** One tracked instance at flush time.  The result is what the session
    tracks afterwards.  A pending instance is inserted and takes the id of
    its row.  A persistent one sends an UPDATE when some attribute is no
    longer [==] to what was loaded, and no statement otherwise; either way
    its row is afterwards what the store keeps of its attributes.  When no
    attribute changed that is the row the store held already: attributes
    [==] to the loaded ones differ from them at most in the sign of a zero,
    which the store does not keep.  A deleted one is deleted. *)
Definition flush_one (p : nat * Status) : M (list (nat * Status)) :=
  o ← get_instance p.1;
  t ← table;
  match p.2 with
  | Pending =>
      let '(pk, t') := sql_insert (attrs o) t in
      let o' := Address.setattr (attrs o) "id" (PyInt pk) in
      modify (set_addresses t');;
      store p.1 (mkInstance o' o');;
      modify (log (INSERT pk));;
      ret [(p.1, Persistent)]
  | Persistent =>
      let pk := rowid (committed o) in
      modify (set_addresses (sql_update pk (attrs o) t));;
      store p.1 (mkInstance (attrs o) (attrs o));;
      match Address.changed (attrs o) (committed o) with
      | [] => ret [p]
      | _ => modify (log (UPDATE pk));; ret [p]
      end
  | Deleted =>
      let pk := rowid (committed o) in
      modify (set_addresses (sql_delete pk t));;
      modify (log (DELETE pk));;
      ret []
  end.

Fixpoint flush_all (ps : list (nat * Status)) : M (list (nat * Status)) :=
  match ps with
  | [] => ret []
  | p :: rest =>
      kept ← flush_one p;
      kept' ← flush_all rest;
      ret (kept ++ kept')
  end.

(** [db.commit()]: flush what the session tracks, then COMMIT. *)
Definition Session_commit (db : nat) : M unit :=
  s ← get_session db;
  kept ← flush_all (tracked s);
  put_session db (mkSession kept (active s));;
  modify (log COMMIT).

(** [db.refresh(obj)]: read the row of the instance again. *)
Definition Session_refresh (db ref : nat) : M unit :=
  o ← load ref;
  t ← table;
  modify (log SELECT);;
  match sql_select_by_id (rowid o) t with
  | Some row => store ref (mkInstance row row)
  | None => raise (InvalidRequestError "Could not refresh instance")
  end.

(** [db.close()]: forget every instance and give the connection back. *)
Definition Session_close (db : nat) : M unit :=
  _ ← get_session db;
  put_session db (mkSession [] false);;
  modify (log Closed).

Definition int_too_large : Exception :=
  OverflowError "Python int too large to convert to SQLite INTEGER".

(** [db.query(Address).filter(Address.id == address_id).first()].  The
    session does not flush before a query (autoflush=False).  An identifier
    the driver cannot bind raises before the SELECT is sent. *)
Definition Query_first (db : nat) (address_id : Z) : M (option nat) :=
  if in_int64 address_id then
    t ← table;
    modify (log SELECT);;
    match sql_select_by_id address_id t with
    | None => ret None
    | Some row =>
        ref ← alloc (mkInstance row row);
        track db ref Persistent;;
        ret (Some ref)
    end
  else raise int_too_large.

(** [db.query(Address).offset(skip).limit(limit).all()] *)
Fixpoint load_rows (db : nat) (rows : list Address.t) : M (list nat) :=
  match rows with
  | [] => ret []
  | row :: rest =>
      ref ← alloc (mkInstance row row);
      track db ref Persistent;;
      refs ← load_rows db rest;
      ret (ref :: refs)
  end.

Definition Query_all (db : nat) (skip limit : Z) : M (list nat) :=
  if in_int64 skip && in_int64 limit then
    t ← table;
    modify (log SELECT);;
    load_rows db (sql_select_page skip limit t)
  else raise int_too_large.

(** ** The handlers *)

Definition Address_not_found : Exception :=
  HTTPException 404 "Address not found".

Definition create_address (address : AddressCreate.t) : M nat :=
  db ← SessionLocal;
  db_address ← new_Address (AddressCreate.dict address);
  Session_add db db_address;;
  Session_commit db;;
  Session_refresh db db_address;;
  Session_close db;;
  ret db_address.

Definition read_addresses (skip limit : Z) : M (list nat) :=
  db ← SessionLocal;
  addresses ← Query_all db skip limit;
  Session_close db;;
  ret addresses.

Definition read_address (address_id : Z) : M nat :=
  db ← SessionLocal;
  address ← Query_first db address_id;
  Session_close db;;
  match address with
  | None => raise Address_not_found
  | Some address => ret address
  end.

Definition update_address (address_id : Z) (address : AddressCreate.t) : M nat :=
  db ← SessionLocal;
  db_address ← Query_first db address_id;
  match db_address with
  | None =>
      Session_close db;;
      raise Address_not_found
  | Some db_address =>
      for_each (AddressCreate.dict address)
               (fun item => setattr db_address item.1 item.2);;
      Session_commit db;;
      Session_refresh db db_address;;
      Session_close db;;
      ret db_address
  end.

(** The body of [delete_address] ends with [db.delete(db_address)]: the
    function then falls off its end and returns [None]. *)
Definition delete_address (address_id : Z) : M unit :=
  db ← SessionLocal;
  db_address ← Query_first db address_id;
  match db_address with
  | None =>
      Session_close db;;
      raise Address_not_found
  | Some db_address =>
      Session_delete db db_address
  end.

(** ** class AddressResponse(AddressCreate) and the response bodies *)

Module AddressResponse.
Record t := mk {
  base : AddressCreate.t;
  id : Z
}.

(** What [response_model] reads off a returned instance. *)
Definition from_orm (o : Address.t) : option t :=
  match o with
  | Address.mk (PyInt i) (PyFloat la) (PyFloat lo)
               (PyStr n) (PyStr a) (PyStr c) (PyStr s) (PyStr z) =>
      Some (mk (AddressCreate.mk la lo n a c s z) i)
  | _ => None
  end.

(** The JSON encoder of the response refuses a float that is no number
    ([allow_nan=False]). *)
Definition json_compliant (r : t) : bool :=
  AddressCreate.storable (base r).

(** A returned instance as the response carries it, when it can. *)
Definition render (o : Address.t) : option t :=
  match from_orm o with
  | Some r => if json_compliant r then Some r else None
  | None => None
  end.
End AddressResponse.

Inductive Body :=
| Body_null
| Body_address (r : AddressResponse.t)
| Body_addresses (rs : list AddressResponse.t)
| Body_detail (detail : string)
| Body_errors (loc : list string)
| Body_text (text : string).

Record Response := mkResponse {
  status_code : Z;
  body : Body
}.

Definition not_json_compliant : Exception :=
  ValueError "Out of range float values are not JSON compliant".

Definition render_one (ref : nat) : M AddressResponse.t :=
  o ← load ref;
  match AddressResponse.from_orm o with
  | Some r =>
      if AddressResponse.json_compliant r then ret r else raise not_json_compliant
  | None => raise ResponseValidationError
  end.

Definition render_address (ref : nat) : M Body :=
  r ← render_one ref;
  ret (Body_address r).

Fixpoint render_each (refs : list nat) : M (list AddressResponse.t) :=
  match refs with
  | [] => ret []
  | ref :: rest =>
      r ← render_one ref;
      rs ← render_each rest;
      ret (r :: rs)
  end.

Definition render_addresses (refs : list nat) : M Body :=
  rs ← render_each refs;
  ret (Body_addresses rs).

Definition render_null (_ : unit) : M Body := ret Body_null.

(** ** Serving one request

    Each request runs its handler in a frame of its own, over the table as
    the requests before it left it.  What comes back is the response and the
    frame at the end of the request; its [addresses] are the store the next
    request sees. *)

Definition fresh_frame (t : Table) : Env := mkEnv t [] [] [].

(** An exception no handler of the framework knows ends the request with
    the plain 500 page. *)
Definition server_error : Response :=
  mkResponse 500 (Body_text "Internal Server Error").

Definition error_response (exn : Exception) : Response :=
  match exn with
  | HTTPException code detail => mkResponse code (Body_detail detail)
  | RequestValidationError loc => mkResponse 422 (Body_errors loc)
  | _ => server_error
  end.

Definition serve {A} (handler : M A) (render : A -> M Body) (t : Table)
  : Response * Env :=
  match (x ← handler; render x) (fresh_frame t) with
  | (Returned b, e) => (mkResponse 200 b, e)
  | (Raised exn, e) => (error_response exn, e)
  end.

Definition Create (address : AddressCreate.t) : Table -> Response * Env :=
  serve (create_address address) render_address.

Definition List (skip limit : Z) : Table -> Response * Env :=
  serve (read_addresses skip limit) render_addresses.

Definition Get (address_id : Z) : Table -> Response * Env :=
  serve (read_address address_id) render_address.

Definition Update (address_id : Z) (address : AddressCreate.t) : Table -> Response * Env :=
  serve (update_address address_id address) render_address.

Definition Delete (address_id : Z) : Table -> Response * Env :=
  serve (delete_address address_id) render_null.

(** The store a request leaves behind. *)
Definition store_after (r : Response * Env) : Table := addresses r.2.

(** ** The answers *)

Definition closed_session : Session := mkSession [] false.

Definition ok_address (a : AddressCreate.t) (pk : Z) : Response :=
  mkResponse 200 (Body_address (AddressResponse.mk a pk)).

Definition not_found : Response :=
  mkResponse 404 (Body_detail "Address not found").

(** What the framework makes of a returned row. *)
Definition row_response (row : Address.t) : Response :=
  match AddressResponse.render row with
  | Some r => mkResponse 200 (Body_address r)
  | None => server_error
  end.

(** The rows of a list as the response carries them, when every one can be
    carried. *)
Fixpoint from_orm_all (rows : list Address.t) : option (list AddressResponse.t) :=
  match rows with
  | [] => Some []
  | row :: rest =>
      match AddressResponse.render row, from_orm_all rest with
      | Some r, Some rs => Some (r :: rs)
      | _, _ => None
      end
  end.

Definition page_response (rows : list Address.t) : Response :=
  match from_orm_all rows with
  | Some rs => mkResponse 200 (Body_addresses rs)
  | None => server_error
  end.

Definition records (r : Response) : list AddressResponse.t :=
  match body r with
  | Body_addresses rs => rs
  | _ => []
  end.

(** [.all()] loads the selected rows one after the other; these are the
    instances it leaves in the frame and what the session then tracks. *)
Definition instances (rows : list Address.t) : list Instance :=
  (fun row => mkInstance row row) <$> rows.

Definition persistent (refs : list nat) : list (nat * Status) :=
  (fun ref => (ref, Persistent)) <$> refs.

(** A frame whose one session is closed, the closing being the last thing
    asked of the data layer. *)
Definition released (e : Env) : Prop :=
  sessions e = [closed_session] /\ last (trace e) = Some Closed.

(** ** Identifiers present in the store *)

Definition stored (address_id : Z) (t : Table) : bool :=
  existsb (has_id address_id) t.

(** ** Query parameters of the list route

    [read_addresses(skip: int = 0, limit: int = 10)]: a parameter the request
    does not give takes its default; one it gives is passed on as it is. *)


(** ** Request bodies and their validation

    The framework parses the JSON body and validates it against
    [AddressCreate] before it calls the handler: every field is required,
    [latitude] and [longitude] must validate as [float] and the other five
    as [str].  Which JSON values validate as a [float] or a [str] is the
    validation library's choice, so the two scalar validators are taken as
    given. *)

Local Set Warnings "-register-all".

Inductive Json :=
| JNull
| JBool (b : bool)
| JNumber (x : float)
| JString (s : string)
| JArray (items : list Json)
| JObject (members : list (string * Json)).

(** Member lookup in a parsed object; of two members with one name the later
    one counts. *)
Fixpoint dict_get (key : string) (members : list (string * Json)) : option Json :=
  match members with
  | [] => None
  | (k, v) :: rest =>
      match dict_get key rest with
      | Some v' => Some v'
      | None => if String.eqb k key then Some v else None
      end
  end.

Inductive FieldType := Float | Str.

Definition AddressCreate_fields : list (string * FieldType) :=
  [ ("latitude", Float); ("longitude", Float); ("name", Str); ("address", Str);
    ("city", Str); ("state", Str); ("zip_code", Str) ].

Section Validation.

Variable float_validator : Json -> option float.
Variable str_validator : Json -> option string.

Definition accepts (ty : FieldType) (v : Json) : bool :=
  match ty with
  | Float => bool_decide (is_Some (float_validator v))
  | Str => bool_decide (is_Some (str_validator v))
  end.

(** A field the body lacks, or gives with a value of the wrong type. *)
Definition field_invalid (members : list (string * Json)) (f : string * FieldType) : bool :=
  match dict_get f.1 members with
  | None => true
  | Some v => negb (accepts f.2 v)
  end.

Definition field {A} (validator : Json -> option A) (members : list (string * Json))
           (key : string) : option A :=
  dict_get key members ≫= validator.

Definition AddressCreate_validate (body : Json) : Exception + AddressCreate.t :=
  match body with
  | JObject members =>
      match field float_validator members "latitude",
            field float_validator members "longitude",
            field str_validator members "name",
            field str_validator members "address",
            field str_validator members "city",
            field str_validator members "state",
            field str_validator members "zip_code" with
      | Some la, Some lo, Some n, Some a, Some c, Some s, Some z =>
          inr (AddressCreate.mk la lo n a c s z)
      | _, _, _, _, _, _, _ =>
          inl (RequestValidationError
                 ((fun f => f.1) <$> filter (fun f => field_invalid members f = true)
                                            AddressCreate_fields))
      end
  | _ => inl (RequestValidationError ["body"])
  end.

(** POST /addresses/ *)
Definition POST_addresses (body : Json) (t : Table) : Response * Env :=
  match AddressCreate_validate body with
  | inl exn => (error_response exn, fresh_frame t)
  | inr address => Create address t
  end.

(** PUT /addresses/{address_id} *)
Definition PUT_address (address_id : Z) (body : Json) (t : Table) : Response * Env :=
  match AddressCreate_validate body with
  | inl exn => (error_response exn, fresh_frame t)
  | inr address => Update address_id address t
  end.

End Validation.

(** Validators that take a JSON number as a [float] and a JSON string as a
    [str], and nothing else. *)
Definition json_float (v : Json) : option float :=
  match v with
  | JNumber x => Some x
  | _ => None
  end.

Definition json_str (v : Json) : option string :=
  match v with
  | JString s => Some s
  | _ => None
  end.

Definition HQ_body : Json :=
  JObject [ ("latitude", JNumber 0x1.459999999999ap+5%float);
            ("longitude", JNumber (-74)%float);
            ("name", JString "HQ"); ("address", JString "1 Main St");
            ("city", JString "NYC"); ("state", JString "NY");
            ("zip_code", JString "10001") ].

(** The body of the scenario without its zip code. *)
Definition HQ_without_zip : Json :=
  JObject [ ("latitude", JNumber 0x1.459999999999ap+5%float);
            ("longitude", JNumber (-74)%float);
            ("name", JString "HQ"); ("address", JString "1 Main St");
            ("city", JString "NYC"); ("state", JString "NY") ].

(** ** Sequences of requests *)

Inductive Request :=
| DoCreate (address : AddressCreate.t)
| DoList (skip limit : Z)
| DoGet (address_id : Z)
| DoUpdate (address_id : Z) (address : AddressCreate.t)
| DoDelete (address_id : Z).

Definition perform (r : Request) : Table -> Response * Env :=
  match r with
  | DoCreate a => Create a
  | DoList skip limit => List skip limit
  | DoGet i => Get i
  | DoUpdate i a => Update i a
  | DoDelete i => Delete i
  end.

(** The identifier a response to a creation carries. *)
Definition assigned (r : Request) (resp : Response) : list Z :=
  match r, body resp with
  | DoCreate _, Body_address rec => [AddressResponse.id rec]
  | _, _ => []
  end.

(** The identifiers handed out along a sequence of requests, in order. *)
Fixpoint assigned_ids (reqs : list Request) (t : Table) : list Z :=
  match reqs with
  | [] => []
  | r :: rest =>
      assigned r (perform r t).1 ++ assigned_ids rest (store_after (perform r t))
  end.

(** Creating one record after the other. *)
Fixpoint create_all (inputs : list AddressCreate.t) (t : Table) : Table :=
  match inputs with
  | [] => t
  | a :: rest => create_all rest (store_after (Create a t))
  end.

(** The inputs under consecutive identifiers. *)
Fixpoint records_from (first : Z) (inputs : list AddressCreate.t)
  : list AddressResponse.t :=
  match inputs with
  | [] => []
  | a :: rest => AddressResponse.mk a first :: records_from (first + 1) rest
  end.


(** ** Sample data *)

(** The record of the specification's scenario; the latitude is the double
    nearest to 40.7. *)
Definition HQ : AddressCreate.t :=
  AddressCreate.mk 0x1.459999999999ap+5%float (-74)%float
                   "HQ" "1 Main St" "NYC" "NY" "10001".

Definition one_record : Table := [Address.of_fields 1 HQ].

Definition Annex : AddressCreate.t :=
  AddressCreate.mk 51.5%float (-0.125)%float "Annex" "2 Side St" "London" "LDN" "N1".


Definition Equator : AddressCreate.t :=
  AddressCreate.mk PrimFloat.neg_zero 9.5%float "Equator" "1 Line Rd" "Libreville" "G1" "0001".


Definition eleven : Table := create_all (replicate 11 HQ) [].

(** ** Stores built by requests *)

(** The store a sequence of requests leaves, one request after the other. *)
Definition run (reqs : list Request) (t : Table) : Table :=
  foldl (fun t r => store_after (perform r t)) t reqs.

(** Identifiers above [lo] in strictly ascending order. *)
Fixpoint increasing_from (lo : Z) (l : list Z) : bool :=
  match l with
  | [] => true
  | x :: rest => Z.ltb lo x && increasing_from x rest
  end.

Definition ids_ascending (t : Table) : bool :=
  increasing_from 0 (rowid <$> t).

(** A row the response can carry: an integer id, two floats that are
    numbers, five strings. *)
Definition complete (row : Address.t) : bool :=
  match AddressResponse.render row with
  | Some _ => true
  | None => false
  end.

(** The shape of a store the service has written from inputs whose
    coordinates are numbers: positive identifiers in ascending scan order,
    every row complete. *)
Definition well_formed (t : Table) : bool :=
  ids_ascending t && forallb complete t.

(** A request whose input, if it has one, has numbers for coordinates. *)
Definition request_storable (r : Request) : bool :=
  match r with
  | DoCreate a | DoUpdate _ a => AddressCreate.storable a
  | _ => true
  end.

(** A request whose integers the driver can bind. *)
Definition request_in_range (r : Request) : bool :=
  match r with
  | DoCreate _ => true
  | DoList skip limit => in_int64 skip && in_int64 limit
  | DoGet i | DoUpdate i _ | DoDelete i => in_int64 i
  end.

(** What [update_address] asks of the data layer when it finds its record:
    the UPDATE is sent only if some attribute changed. *)
Definition update_trace (pk : Z) (changes : list string) : list Event :=
  [Opened; SELECT]
    ++ match changes with
       | [] => []
       | _ => [UPDATE pk]
       end
    ++ [COMMIT; SELECT; Closed].

(** The frame of a handler that the driver stopped at its first query: the
    session is open and nothing was sent. *)
Definition stopped_frame (t : Table) : Env :=
  mkEnv t [] [mkSession [] true] [Opened].

(** Statements that write, and the COMMIT that makes them last. *)
Definition is_write (ev : Event) : bool :=
  match ev with
  | INSERT _ | UPDATE _ | DELETE _ | COMMIT => true
  | _ => false
  end.

Definition is_opened (ev : Event) : bool :=
  match ev with
  | Opened => true
  | _ => false
  end.

(** The JSON object a client sends for [a]. *)
Definition AddressCreate_json (a : AddressCreate.t) : Json :=
  JObject [ ("latitude", JNumber (AddressCreate.latitude a));
            ("longitude", JNumber (AddressCreate.longitude a));
            ("name", JString (AddressCreate.name a));
            ("address", JString (AddressCreate.address a));
            ("city", JString (AddressCreate.city a));
            ("state", JString (AddressCreate.state a));
            ("zip_code", JString (AddressCreate.zip_code a)) ].

Definition two_records : Table :=
  [Address.of_fields 1 HQ; Address.of_fields 2 Annex].

(** * Properties *)

(** ** The table *)


Lemma max_rowid_bound (t : Table) (r : Address.t) :
  r ∈ t -> exists m, max_rowid t = Some m /\ rowid r <= m.
Proof.
  induction t as [|x t IH]; intros Hin; [by apply elem_of_nil in Hin|].
  apply elem_of_cons in Hin as [->|Hin]; simpl.
  - destruct (max_rowid t); eexists; split; try reflexivity; lia.
  - destruct (IH Hin) as (m & -> & Hle). eexists; split; [reflexivity|lia].
Qed.

Lemma has_id_rowid (pk : Z) (r : Address.t) :
  has_id pk r = true -> rowid r = pk.
Proof.
  unfold has_id, rowid. destruct (Address.id r); try discriminate.
  intros H. by apply Z.eqb_eq in H.
Qed.

Lemma next_rowid_fresh (t : Table) (r : Address.t) :
  r ∈ t -> has_id (next_rowid t) r = false.
Proof.
  intros Hin. destruct (has_id (next_rowid t) r) eqn:E; [|done].
  apply has_id_rowid in E. destruct (max_rowid_bound t r Hin) as (m & Hm & Hle).
  unfold next_rowid in E. rewrite Hm in E. lia.
Qed.

Lemma select_None (pk : Z) (t : Table) :
  sql_select_by_id pk t = None <-> (forall r, r ∈ t -> has_id pk r = false).
Proof.
  unfold sql_select_by_id. induction t as [|x t IH].
  - split; [|done]. intros _ r Hr. by apply elem_of_nil in Hr.
  - rewrite filter_cons. destruct (decide (has_id pk x = true)) as [Hx|Hx].
    + split; [done|]. intros H. specialize (H x (list_elem_of_here _ _)). congruence.
    + rewrite IH. split.
      * intros H r Hr. apply elem_of_cons in Hr as [->|Hr]; [|by apply H].
        by destruct (has_id pk x).
      * intros H r Hr. apply H. by apply list_elem_of_further.
Qed.

Lemma select_Some (pk : Z) (t : Table) (row : Address.t) :
  sql_select_by_id pk t = Some row -> row ∈ t /\ has_id pk row = true.
Proof.
  unfold sql_select_by_id. intros H.
  apply head_Some_elem_of in H. by apply list_elem_of_filter in H as [? ?].
Qed.

Lemma select_app_fresh (pk : Z) (t : Table) (row : Address.t) :
  (forall r, r ∈ t -> has_id pk r = false) ->
  has_id pk row = true ->
  sql_select_by_id pk (t ++ [row]) = Some row.
Proof.
  intros Hfresh Hrow. unfold sql_select_by_id. rewrite filter_app.
  apply select_None in Hfresh. unfold sql_select_by_id in Hfresh.
  destruct (filter _ t) as [|y ys]; [|discriminate]. simpl.
  rewrite filter_cons. by destruct (decide (has_id pk row = true)).
Qed.

Lemma has_id_sqlite_row (pk : Z) (row : Address.t) :
  has_id pk (sqlite_row row) = has_id pk row.
Proof. reflexivity. Qed.

Lemma rowid_sqlite_row (row : Address.t) : rowid (sqlite_row row) = rowid row.
Proof. reflexivity. Qed.

Lemma select_update (pk : Z) (t : Table) (old row : Address.t) :
  sql_select_by_id pk t = Some old ->
  has_id pk row = true ->
  sql_select_by_id pk (sql_update pk row t) = Some (sqlite_row row).
Proof.
  unfold sql_select_by_id, sql_update. intros Hold Hrow.
  induction t as [|x t IH]; [discriminate|].
  rewrite filter_cons in Hold. rewrite fmap_cons, filter_cons.
  destruct (has_id pk x) eqn:Hx.
  - by rewrite decide_True by by rewrite has_id_sqlite_row.
  - rewrite decide_False in Hold by done. rewrite decide_False by congruence.
    by apply IH.
Qed.

(** ** What the store keeps of an input *)

Lemma finite_not_nan (f : float) :
  PrimFloat.is_finite f = true -> PrimFloat.is_nan f = false.
Proof.
  unfold PrimFloat.is_finite. intros H. apply negb_true_iff in H.
  by apply orb_false_iff in H as [? _].
Qed.

Lemma stored_float_finite (f : float) :
  PrimFloat.is_finite f = true ->
  PrimFloat.is_finite (AddressCreate.stored_float f) = true.
Proof.
  intros H. unfold AddressCreate.stored_float.
  by destruct (PrimFloat.is_zero f).
Qed.

Lemma sqlite_value_finite (f : float) :
  PrimFloat.is_finite f = true ->
  sqlite_value (PyFloat f) = PyFloat (AddressCreate.stored_float f).
Proof.
  intros H. unfold sqlite_value, AddressCreate.stored_float.
  rewrite (finite_not_nan f H). by destruct (PrimFloat.is_zero f).
Qed.

Lemma storable_stored (a : AddressCreate.t) :
  AddressCreate.storable a = true ->
  AddressCreate.storable (AddressCreate.stored a) = true.
Proof.
  unfold AddressCreate.storable. intros H. apply andb_true_iff in H as [Hla Hlo].
  cbn. by rewrite !stored_float_finite.
Qed.

Lemma sqlite_row_of_fields (pk : Z) (a : AddressCreate.t) :
  AddressCreate.storable a = true ->
  sqlite_row (Address.of_fields pk a) = Address.of_fields pk (AddressCreate.stored a).
Proof.
  unfold AddressCreate.storable. intros H. apply andb_true_iff in H as [Hla Hlo].
  unfold sqlite_row, Address.of_fields. cbn [Address.id Address.latitude Address.longitude
    Address.name Address.address Address.city Address.state Address.zip_code].
  by rewrite !sqlite_value_finite.
Qed.


Lemma has_id_of_fields (pk : Z) (a : AddressCreate.t) :
  has_id pk (Address.of_fields pk a) = true.
Proof. apply Z.eqb_refl. Qed.

Lemma render_of_fields (pk : Z) (a : AddressCreate.t) :
  AddressCreate.storable a = true ->
  AddressResponse.render (Address.of_fields pk a) = Some (AddressResponse.mk a pk).
Proof.
  intros H. destruct a as [la lo n ad c s z].
  unfold AddressResponse.render. cbn [Address.of_fields AddressResponse.from_orm
    AddressCreate.latitude AddressCreate.longitude AddressCreate.name AddressCreate.address
    AddressCreate.city AddressCreate.state AddressCreate.zip_code].
  unfold AddressResponse.json_compliant. cbn [AddressResponse.base]. by rewrite H.
Qed.

(** The row a storable input leaves, and the response that carries it. *)
Lemma render_stored_row (pk : Z) (a : AddressCreate.t) :
  AddressCreate.storable a = true ->
  AddressResponse.render (sqlite_row (Address.of_fields pk a))
  = Some (AddressResponse.mk (AddressCreate.stored a) pk).
Proof.
  intros H. rewrite (sqlite_row_of_fields pk a H).
  apply render_of_fields. by apply storable_stored.
Qed.

(** ** What each handler does to a fresh frame *)

#[global] Arguments sql_select_by_id : simpl never.
#[global] Arguments sql_select_page : simpl never.
#[global] Arguments sql_update : simpl never.
#[global] Arguments sql_delete : simpl never.
#[global] Arguments next_rowid : simpl never.
#[global] Arguments sqlite_row : simpl never.
#[global] Arguments in_int64 : simpl never.
#[global] Arguments Address.changed : simpl never.
#[global] Arguments AddressResponse.json_compliant : simpl never.

Ltac exec :=
  cbv [mbind M_bind bind mret M_ret ret raise modify table alloc get_instance load store
       new_Address setattr SessionLocal get_session put_session track Session_add
       Session_delete Session_commit Session_refresh Session_close Query_first Query_all
       flush_all flush_one fresh_frame set_addresses set_heap set_sessions log
       addresses heap sessions trace for_each
       render_one render_address render_addresses render_null serve error_response];
  cbn.

Lemma create_address_run (a : AddressCreate.t) (t : Table) :
  create_address a (fresh_frame t) =
  (Returned 0%nat,
   mkEnv (t ++ [sqlite_row (Address.of_fields (next_rowid t) a)])
         [mkInstance (sqlite_row (Address.of_fields (next_rowid t) a))
                     (sqlite_row (Address.of_fields (next_rowid t) a))]
         [mkSession [] false]
         [Opened; INSERT (next_rowid t); COMMIT; SELECT; Closed]).
Proof.
  unfold create_address. exec.
  erewrite select_app_fresh; [reflexivity | apply next_rowid_fresh | apply Z.eqb_refl].
Qed.

Lemma select_row_id (pk : Z) (t : Table) (row : Address.t) :
  sql_select_by_id pk t = Some row -> Address.id row = PyInt pk.
Proof.
  intros H. apply select_Some in H as [_ H]. unfold has_id in H.
  destruct (Address.id row); try discriminate. by apply Z.eqb_eq in H as ->.
Qed.

Lemma read_address_found (address_id : Z) (t : Table) (row : Address.t) :
  in_int64 address_id = true ->
  sql_select_by_id address_id t = Some row ->
  read_address address_id (fresh_frame t) =
  (Returned 0%nat,
   mkEnv t [mkInstance row row] [closed_session] [Opened; SELECT; Closed]).
Proof. intros Hr H. unfold read_address. exec. rewrite Hr. exec. rewrite H. reflexivity. Qed.

Lemma read_address_missing (address_id : Z) (t : Table) :
  in_int64 address_id = true ->
  sql_select_by_id address_id t = None ->
  read_address address_id (fresh_frame t) =
  (Raised Address_not_found,
   mkEnv t [] [closed_session] [Opened; SELECT; Closed]).
Proof. intros Hr H. unfold read_address. exec. rewrite Hr. exec. rewrite H. reflexivity. Qed.

Lemma read_address_overflow (address_id : Z) (t : Table) :
  in_int64 address_id = false ->
  read_address address_id (fresh_frame t) = (Raised int_too_large, stopped_frame t).
Proof. intros Hr. unfold read_address. exec. rewrite Hr. reflexivity. Qed.

Lemma update_address_found (address_id : Z) (a : AddressCreate.t) (t : Table)
      (row : Address.t) :
  in_int64 address_id = true ->
  sql_select_by_id address_id t = Some row ->
  update_address address_id a (fresh_frame t) =
  (Returned 0%nat,
   mkEnv (sql_update address_id (Address.of_fields address_id a) t)
         [mkInstance (sqlite_row (Address.of_fields address_id a))
                     (sqlite_row (Address.of_fields address_id a))]
         [closed_session]
         (update_trace address_id (Address.changed (Address.of_fields address_id a) row))).
Proof.
  intros Hr H. pose proof (select_row_id _ _ _ H) as Hid.
  destruct row as [i la lo n ad c s z]. simpl in Hid. subst i.
  set (ch := Address.changed _ _).
  unfold update_address. exec. rewrite Hr. exec. rewrite H. exec.
  change (Address.changed _ _) with ch. unfold update_trace.
  destruct ch; exec;
    (erewrite select_update; [reflexivity | exact H | apply Z.eqb_refl]).
Qed.

Lemma update_address_missing (address_id : Z) (a : AddressCreate.t) (t : Table) :
  in_int64 address_id = true ->
  sql_select_by_id address_id t = None ->
  update_address address_id a (fresh_frame t) =
  (Raised Address_not_found,
   mkEnv t [] [closed_session] [Opened; SELECT; Closed]).
Proof. intros Hr H. unfold update_address. exec. rewrite Hr. exec. rewrite H. reflexivity. Qed.

Lemma update_address_overflow (address_id : Z) (a : AddressCreate.t) (t : Table) :
  in_int64 address_id = false ->
  update_address address_id a (fresh_frame t) = (Raised int_too_large, stopped_frame t).
Proof. intros Hr. unfold update_address. exec. rewrite Hr. reflexivity. Qed.

Lemma delete_address_found (address_id : Z) (t : Table) (row : Address.t) :
  in_int64 address_id = true ->
  sql_select_by_id address_id t = Some row ->
  delete_address address_id (fresh_frame t) =
  (Returned tt,
   mkEnv t [mkInstance row row] [mkSession [(0%nat, Deleted)] true]
         [Opened; SELECT]).
Proof. intros Hr H. unfold delete_address. exec. rewrite Hr. exec. rewrite H. reflexivity. Qed.

Lemma delete_address_missing (address_id : Z) (t : Table) :
  in_int64 address_id = true ->
  sql_select_by_id address_id t = None ->
  delete_address address_id (fresh_frame t) =
  (Raised Address_not_found,
   mkEnv t [] [closed_session] [Opened; SELECT; Closed]).
Proof. intros Hr H. unfold delete_address. exec. rewrite Hr. exec. rewrite H. reflexivity. Qed.

Lemma delete_address_overflow (address_id : Z) (t : Table) :
  in_int64 address_id = false ->
  delete_address address_id (fresh_frame t) = (Raised int_too_large, stopped_frame t).
Proof. intros Hr. unfold delete_address. exec. rewrite Hr. reflexivity. Qed.

Lemma load_rows_run (db : nat) (rows : list Address.t) :
  forall (t : Table) (h : list Instance) (ss : list Session) (tr : list Event)
         (s : Session),
    ss !! db = Some s ->
    load_rows db rows (mkEnv t h ss tr) =
    (Returned (seq (length h) (length rows)),
     mkEnv t (h ++ instances rows)
           (<[db := mkSession (tracked s ++ persistent (seq (length h) (length rows)))
                              (active s)]> ss)
           tr).
Proof.
  induction rows as [|row rows IH]; intros t h ss tr s Hs.
  - cbn. rewrite !app_nil_r. destruct s. by rewrite list_insert_id.
  - cbn [load_rows]. exec. rewrite Hs. cbn.
    erewrite IH; last first.
    { apply list_lookup_insert_eq. by eapply lookup_lt_Some. }
    cbn. rewrite list_insert_insert_eq, length_app, Nat.add_1_r. cbn.
    by rewrite <- !app_assoc.
Qed.

Lemma render_each_run (rows : list Address.t) :
  forall (h : list Instance) (e : Env),
    heap e = h ++ instances rows ->
    exists exn,
      render_each (seq (length h) (length rows)) e =
      match from_orm_all rows with
      | Some rs => (Returned rs, e)
      | None => (Raised exn, e)
      end /\
      error_response exn = server_error.
Proof.
  induction rows as [|row rows IH]; intros h e He; [by exists ResponseValidationError|].
  destruct e as [t h' ss tr]. simpl in He. subst h'.
  specialize (IH (h ++ [mkInstance row row])
                 (mkEnv t (h ++ mkInstance row row :: instances rows) ss tr)).
  rewrite length_app in IH. cbn [length] in IH. rewrite Nat.add_1_r in IH.
  destruct IH as (exn & IH & Hexn); [cbn [heap]; by rewrite <- app_assoc|].
  cbn [render_each seq length from_orm_all]. unfold AddressResponse.render. exec.
  rewrite list_lookup_middle by done. cbn.
  destruct (AddressResponse.from_orm row) as [r|];
    [|by exists ResponseValidationError].
  destruct (AddressResponse.json_compliant r); [|by exists not_json_compliant].
  exec. rewrite IH. exists exn. by destruct (from_orm_all rows).
Qed.

Lemma List_run (skip limit : Z) (t : Table) :
  in_int64 skip = true -> in_int64 limit = true ->
  List skip limit t =
  (page_response (sql_select_page skip limit t),
   mkEnv t (instances (sql_select_page skip limit t))
         [closed_session] [Opened; SELECT; Closed]).
Proof.
  intros Hs Hl. unfold List, read_addresses, page_response. exec. rewrite Hs, Hl. exec.
  erewrite load_rows_run by reflexivity. exec.
  destruct (render_each_run (sql_select_page skip limit t) []
              (mkEnv t (instances (sql_select_page skip limit t))
                     [mkSession [] false] [Opened; SELECT; Closed]) eq_refl)
    as (exn & Hr & Hexn).
  cbn [length app] in Hr. rewrite Hr.
  destruct (from_orm_all _); [done|]. unfold error_response in Hexn. by rewrite Hexn.
Qed.

Lemma List_overflow (skip limit : Z) (t : Table) :
  in_int64 skip && in_int64 limit = false ->
  List skip limit t = (server_error, stopped_frame t).
Proof.
  intros H. unfold List, read_addresses. exec.
  destruct (in_int64 skip), (in_int64 limit); try discriminate H; reflexivity.
Qed.

(** ** What each operation answers *)

Lemma serve_row (t : Table) (row : Address.t) (e : Env) :
  heap e = [mkInstance row row] ->
  match render_address 0%nat e with
  | (Returned b, e') => (mkResponse 200 b, e')
  | (Raised exn, e') => (error_response exn, e')
  end = (row_response row, e).
Proof.
  destruct e as [t' h ss tr]. cbn [heap]. intros ->.
  unfold row_response, AddressResponse.render. exec.
  destruct (AddressResponse.from_orm row) as [r|]; [|done].
  by destruct (AddressResponse.json_compliant r).
Qed.

Lemma Create_run (a : AddressCreate.t) (t : Table) :
  Create a t =
  (row_response (sqlite_row (Address.of_fields (next_rowid t) a)),
   mkEnv (t ++ [sqlite_row (Address.of_fields (next_rowid t) a)])
         [mkInstance (sqlite_row (Address.of_fields (next_rowid t) a))
                     (sqlite_row (Address.of_fields (next_rowid t) a))]
         [closed_session]
         [Opened; INSERT (next_rowid t); COMMIT; SELECT; Closed]).
Proof.
  unfold Create, serve. cbv [mbind M_bind bind]. rewrite create_address_run.
  by apply serve_row.
Qed.

Lemma Get_found (address_id : Z) (t : Table) (row : Address.t) :
  in_int64 address_id = true ->
  sql_select_by_id address_id t = Some row ->
  Get address_id t =
  (row_response row,
   mkEnv t [mkInstance row row] [closed_session] [Opened; SELECT; Closed]).
Proof.
  intros Hr H. unfold Get, serve. cbv [mbind M_bind bind].
  rewrite (read_address_found _ _ _ Hr H). by apply serve_row.
Qed.

Lemma Get_missing (address_id : Z) (t : Table) :
  in_int64 address_id = true ->
  sql_select_by_id address_id t = None ->
  Get address_id t =
  (not_found, mkEnv t [] [closed_session] [Opened; SELECT; Closed]).
Proof.
  intros Hr H. unfold Get, serve. cbv [mbind M_bind bind].
  by rewrite (read_address_missing _ _ Hr H).
Qed.

Lemma Get_overflow (address_id : Z) (t : Table) :
  in_int64 address_id = false ->
  Get address_id t = (server_error, stopped_frame t).
Proof.
  intros Hr. unfold Get, serve. cbv [mbind M_bind bind].
  by rewrite (read_address_overflow _ _ Hr).
Qed.

Lemma Update_found (address_id : Z) (a : AddressCreate.t) (t : Table) (row : Address.t) :
  in_int64 address_id = true ->
  sql_select_by_id address_id t = Some row ->
  Update address_id a t =
  (row_response (sqlite_row (Address.of_fields address_id a)),
   mkEnv (sql_update address_id (Address.of_fields address_id a) t)
         [mkInstance (sqlite_row (Address.of_fields address_id a))
                     (sqlite_row (Address.of_fields address_id a))]
         [closed_session]
         (update_trace address_id (Address.changed (Address.of_fields address_id a) row))).
Proof.
  intros Hr H. unfold Update, serve. cbv [mbind M_bind bind].
  rewrite (update_address_found _ a _ _ Hr H). by apply serve_row.
Qed.

Lemma Update_missing (address_id : Z) (a : AddressCreate.t) (t : Table) :
  in_int64 address_id = true ->
  sql_select_by_id address_id t = None ->
  Update address_id a t =
  (not_found, mkEnv t [] [closed_session] [Opened; SELECT; Closed]).
Proof.
  intros Hr H. unfold Update, serve. cbv [mbind M_bind bind].
  by rewrite (update_address_missing _ a _ Hr H).
Qed.

Lemma Update_overflow (address_id : Z) (a : AddressCreate.t) (t : Table) :
  in_int64 address_id = false ->
  Update address_id a t = (server_error, stopped_frame t).
Proof.
  intros Hr. unfold Update, serve. cbv [mbind M_bind bind].
  by rewrite (update_address_overflow _ a _ Hr).
Qed.

Lemma Delete_found (address_id : Z) (t : Table) (row : Address.t) :
  in_int64 address_id = true ->
  sql_select_by_id address_id t = Some row ->
  Delete address_id t =
  (mkResponse 200 Body_null,
   mkEnv t [mkInstance row row] [mkSession [(0%nat, Deleted)] true]
         [Opened; SELECT]).
Proof.
  intros Hr H. unfold Delete, serve. cbv [mbind M_bind bind].
  by rewrite (delete_address_found _ _ _ Hr H).
Qed.

Lemma Delete_missing (address_id : Z) (t : Table) :
  in_int64 address_id = true ->
  sql_select_by_id address_id t = None ->
  Delete address_id t =
  (not_found, mkEnv t [] [closed_session] [Opened; SELECT; Closed]).
Proof.
  intros Hr H. unfold Delete, serve. cbv [mbind M_bind bind].
  by rewrite (delete_address_missing _ _ Hr H).
Qed.

Lemma Delete_overflow (address_id : Z) (t : Table) :
  in_int64 address_id = false ->
  Delete address_id t = (server_error, stopped_frame t).
Proof.
  intros Hr. unfold Delete, serve. cbv [mbind M_bind bind].
  by rewrite (delete_address_overflow _ _ Hr).
Qed.

(** Case analysis on the three ways a lookup by identifier can go. *)
Ltac lookup_cases i t :=
  let Hr := fresh "Hrange" in
  let E := fresh "Hrow" in
  destruct (in_int64 i) eqn:Hr;
  [destruct (sql_select_by_id i t) eqn:E|].

(** The response of [Get] is decided by the lookup alone. *)
Lemma Get_response (address_id : Z) (t : Table) :
  (Get address_id t).1 =
  if in_int64 address_id then
    match sql_select_by_id address_id t with
    | Some row => row_response row
    | None => not_found
    end
  else server_error.
Proof.
  lookup_cases address_id t.
  - by rewrite (Get_found _ _ _ Hrange Hrow).
  - by rewrite (Get_missing _ _ Hrange Hrow).
  - by rewrite (Get_overflow _ _ Hrange).
Qed.

Lemma Get_store (address_id : Z) (t : Table) :
  store_after (Get address_id t) = t.
Proof.
  unfold store_after. lookup_cases address_id t.
  - by rewrite (Get_found _ _ _ Hrange Hrow).
  - by rewrite (Get_missing _ _ Hrange Hrow).
  - by rewrite (Get_overflow _ _ Hrange).
Qed.

Lemma List_store (skip limit : Z) (t : Table) :
  store_after (List skip limit t) = t.
Proof.
  unfold store_after. destruct (in_int64 skip && in_int64 limit) eqn:E.
  - apply andb_true_iff in E as [Hs Hl]. by rewrite (List_run _ _ _ Hs Hl).
  - by rewrite (List_overflow _ _ _ E).
Qed.

Lemma Create_store (a : AddressCreate.t) (t : Table) :
  store_after (Create a t) = t ++ [sqlite_row (Address.of_fields (next_rowid t) a)].
Proof. by rewrite Create_run. Qed.

Lemma Update_store (address_id : Z) (a : AddressCreate.t) (t : Table) :
  store_after (Update address_id a t) =
  if in_int64 address_id then
    match sql_select_by_id address_id t with
    | Some _ => sql_update address_id (Address.of_fields address_id a) t
    | None => t
    end
  else t.
Proof.
  unfold store_after. lookup_cases address_id t.
  - by rewrite (Update_found _ a _ _ Hrange Hrow).
  - by rewrite (Update_missing _ a _ Hrange Hrow).
  - by rewrite (Update_overflow _ a _ Hrange).
Qed.

Lemma Delete_store (address_id : Z) (t : Table) :
  store_after (Delete address_id t) = t.
Proof.
  unfold store_after. lookup_cases address_id t.
  - by rewrite (Delete_found _ _ _ Hrange Hrow).
  - by rewrite (Delete_missing _ _ Hrange Hrow).
  - by rewrite (Delete_overflow _ _ Hrange).
Qed.

(** ** Identifiers present in the store *)

Lemma stored_select (address_id : Z) (t : Table) :
  stored address_id t = true -> exists row, sql_select_by_id address_id t = Some row.
Proof.
  intros H. destruct (sql_select_by_id address_id t) eqn:E; [by eexists|].
  apply existsb_exists in H as (r & Hr & Hid).
  apply list_elem_of_In in Hr. rewrite select_None in E. rewrite (E r Hr) in Hid. done.
Qed.

Lemma absent_select (address_id : Z) (t : Table) :
  stored address_id t = false -> sql_select_by_id address_id t = None.
Proof.
  intros H. apply select_None. intros r Hr.
  destruct (has_id address_id r) eqn:E; [|done].
  assert (stored address_id t = true); [|congruence].
  apply existsb_exists. exists r. split; [by apply list_elem_of_In|done].
Qed.




(** ** The claims *)







(** C7 as stated fails for an identifier the driver cannot bind: 2^63 is in
    no store, yet [Get], [Update] and [Delete] of it answer 500, not 404,
    and return with the session open. *)
Lemma absent_id_beyond_int64_is_not_404 :
  stored (2 ^ 63) one_record = false /\
  (Get (2 ^ 63) one_record).1 = server_error /\
  (Update (2 ^ 63) Annex one_record).1 = server_error /\
  (Delete (2 ^ 63) one_record).1 = server_error /\
  status_code server_error <> status_code not_found /\
  (Get (2 ^ 63) one_record).2 = stopped_frame one_record.
Proof. repeat split. discriminate. Qed.

(** C7, amended.  For an identifier in the signed 64-bit range that is not
    in the store, [Get], [Update] and [Delete] all answer 404 "Address not
    found", which is not the status of a validation error, and [Update] and
    [Delete] leave the store as it was. *)
Theorem absent_id_not_found (address_id : Z) (a : AddressCreate.t) (t : Table) :
  in_int64 address_id = true ->
  stored address_id t = false ->
  (Get address_id t).1 = not_found /\
  (Update address_id a t).1 = not_found /\
  store_after (Update address_id a t) = t /\
  (Delete address_id t).1 = not_found /\
  store_after (Delete address_id t) = t /\
  (forall loc, status_code (error_response (RequestValidationError loc))
               <> status_code not_found).
Proof.
  intros Hr Hout. apply absent_select in Hout.
  rewrite (Get_missing _ _ Hr Hout), (Update_missing _ a _ Hr Hout),
    (Delete_missing _ _ Hr Hout).
  repeat split; done.
Qed.

Lemma absent_id_not_found_witness :
  (Get 2 one_record).1 = not_found /\
  (Update 2 Annex one_record).1 = not_found /\
  store_after (Update 2 Annex one_record) = one_record /\
  (Delete 2 one_record).1 = not_found /\
  store_after (Delete 2 one_record) = one_record /\
  (forall loc, status_code (error_response (RequestValidationError loc))
               <> status_code not_found).
Proof. apply (absent_id_not_found 2 Annex one_record); reflexivity. Defined.

(** C10.  [Get] and [List] leave the store as they found it, for every
    argument, and nothing they ask of the data layer is a write: no INSERT,
    UPDATE, DELETE or COMMIT. *)
Theorem reads_leave_store (address_id skip limit : Z) (t : Table) :
  store_after (Get address_id t) = t /\
  forallb (fun ev => negb (is_write ev)) (trace (Get address_id t).2) = true /\
  store_after (List skip limit t) = t /\
  forallb (fun ev => negb (is_write ev)) (trace (List skip limit t).2) = true.
Proof.
  rewrite Get_store, List_store. repeat split.
  - lookup_cases address_id t.
    + by rewrite (Get_found _ _ _ Hrange Hrow).
    + by rewrite (Get_missing _ _ Hrange Hrow).
    + by rewrite (Get_overflow _ _ Hrange).
  - destruct (in_int64 skip && in_int64 limit) eqn:E.
    + apply andb_true_iff in E as [Hs Hl]. by rewrite (List_run _ _ _ Hs Hl).
    + by rewrite (List_overflow _ _ _ E).
Qed.

(** ** Pages of the list *)

Lemma in_int64_spec (z : Z) :
  in_int64 z = true <-> - 2 ^ 63 <= z < 2 ^ 63.
Proof.
  unfold in_int64. rewrite andb_true_iff, Z.leb_le, Z.ltb_lt. tauto.
Qed.

Lemma from_orm_all_take (n : nat) (t : Table) :
  forall rs, from_orm_all t = Some rs -> from_orm_all (take n t) = Some (take n rs).
Proof.
  revert n. induction t as [|row t IH]; intros n rs H.
  - injection H as <-. by destruct n.
  - cbn in H. destruct (AddressResponse.render row) as [r|] eqn:Er; [|done].
    destruct (from_orm_all t) as [rs'|] eqn:Et; [|done]. injection H as <-.
    destruct n as [|n]; [done|]. cbn. by rewrite Er, (IH n rs').
Qed.

Lemma from_orm_all_drop (n : nat) (t : Table) :
  forall rs, from_orm_all t = Some rs -> from_orm_all (drop n t) = Some (drop n rs).
Proof.
  revert n. induction t as [|row t IH]; intros n rs H.
  - injection H as <-. by destruct n.
  - destruct n as [|n]; [done|]. cbn in H.
    destruct (AddressResponse.render row) as [r|]; [|done].
    destruct (from_orm_all t) as [rs'|] eqn:Et; [|done]. injection H as <-.
    cbn. by apply IH.
Qed.

Lemma List_page (skip limit : Z) (t : Table) (rs : list AddressResponse.t) :
  from_orm_all t = Some rs ->
  0 <= skip -> in_int64 skip = true ->
  0 <= limit -> in_int64 limit = true ->
  (List skip limit t).1 =
  mkResponse 200 (Body_addresses (take (Z.to_nat limit) (drop (Z.to_nat skip) rs))).
Proof.
  intros Hrs Hskip Hs Hlimit Hl. rewrite (List_run _ _ _ Hs Hl). cbn [fst].
  unfold page_response, sql_select_page, sql_limit, sql_offset.
  destruct (Z.ltb_spec skip 0); [lia|]. destruct (Z.ltb_spec limit 0); [lia|].
  by rewrite (from_orm_all_take _ _ _ (from_orm_all_drop _ _ _ Hrs)).
Qed.
















(** ** Sequences of requests *)


Lemma has_id_inv (pk : Z) (r : Address.t) :
  has_id pk r = true -> Address.id r = PyInt pk.
Proof.
  unfold has_id. destruct (Address.id r); try discriminate.
  intros H. by apply Z.eqb_eq in H as ->.
Qed.


(** Case analysis on a request and on how its lookup goes. *)
Ltac request_cases r t :=
  let a := fresh "a" in
  let i := fresh "i" in
  let skip := fresh "skip" in
  let limit := fresh "limit" in
  let E := fresh "Hpage" in
  destruct r as [a|skip limit|i|i a|i]; cbn [perform];
  [ rewrite ?Create_run
  | destruct (in_int64 skip && in_int64 limit) eqn:E;
    [ apply andb_true_iff in E as [? ?]; rewrite ?List_run by done
    | rewrite ?(List_overflow _ _ _ E) ]
  | lookup_cases i t;
    [ erewrite ?Get_found by done
    | rewrite ?Get_missing by done
    | rewrite ?Get_overflow by done ]
  | lookup_cases i t;
    [ erewrite ?Update_found by done
    | rewrite ?Update_missing by done
    | rewrite ?Update_overflow by done ]
  | lookup_cases i t;
    [ erewrite ?Delete_found by done
    | rewrite ?Delete_missing by done
    | rewrite ?Delete_overflow by done ] ].


Lemma render_id (row : Address.t) (r : AddressResponse.t) :
  AddressResponse.render row = Some r -> Address.id row = PyInt (AddressResponse.id r).
Proof.
  unfold AddressResponse.render.
  destruct (AddressResponse.from_orm row) as [r'|] eqn:E; [|done].
  destruct (AddressResponse.json_compliant r'); [|done]. intros [= <-].
  destruct row as [[| i | |] [] [] [] [] [] [] []]; try discriminate.
  by injection E as <-.
Qed.




(** The DELETE is what the session sends for the deletion [delete_address]
    marks, when the session is flushed and committed. *)
Example commit_of_marked_deletion :
  let e := ((delete_address 1;; Session_commit 0) (fresh_frame one_record)).2 in
  addresses e = sql_delete 1 one_record /\
  trace e = [Opened; SELECT; DELETE 1; COMMIT].
Proof. split; reflexivity. Qed.


(** The scenario of the specification: create, delete, create again. *)
Example ids_around_a_delete :
  assigned_ids [DoCreate HQ; DoDelete 1; DoCreate Annex] [] = [1; 2].
Proof. reflexivity. Qed.

(** ** The success path of [delete_address] *)

(** Whatever the store, a [Delete] of an identifier in it answers 200 and
    leaves the store as it was: the deletion is marked in the session and the
    session is never committed. *)
Lemma Delete_keeps_store (address_id : Z) (t : Table) :
  in_int64 address_id = true ->
  stored address_id t = true ->
  (Delete address_id t).1 = mkResponse 200 Body_null /\
  store_after (Delete address_id t) = t /\
  sessions (Delete address_id t).2 = [mkSession [(0%nat, Deleted)] true].
Proof.
  intros Hr Hin. destruct (stored_select _ _ Hin) as [row Hrow].
  by rewrite (Delete_found _ _ _ Hr Hrow).
Qed.

(** C2, on the code.  After [Create] of the record of the scenario, [Delete]
    of its identifier 1 answers 200, yet the store still holds the record
    and the [Get] that follows answers with it instead of 404. *)
Theorem delete_is_not_persisted :
  let t := store_after (Create HQ []) in
  (Delete 1 t).1 = mkResponse 200 Body_null /\
  store_after (Delete 1 t) = t /\
  (Get 1 (store_after (Delete 1 t))).1 = ok_address HQ 1 /\
  (Get 1 (store_after (Delete 1 t))).1 <> not_found.
Proof. cbv zeta. repeat split. discriminate. Qed.

(** With arguments the driver can bind, every path but the success path of
    [delete_address] ends with its one session closed. *)
Lemma sessions_released (r : Request) (t : Table) :
  request_in_range r = true ->
  (forall i, r = DoDelete i -> stored i t = false) ->
  released (perform r t).2.
Proof.
  intros Hrange Hr. request_cases r t; try done; cbn in Hrange; try congruence.
  - unfold update_trace. by destruct (Address.changed _ _).
  - pose proof (absent_select _ _ (Hr i eq_refl)). congruence.
Qed.

(** C5, on the code.  [Delete] of an identifier in the store returns with
    its session still open: the trace has the opening and the query and no
    closing. *)
Theorem delete_leaves_session_open :
  let t := store_after (Create HQ []) in
  (Delete 1 t).1 = mkResponse 200 Body_null /\
  sessions (Delete 1 t).2 = [mkSession [(0%nat, Deleted)] true] /\
  trace (Delete 1 t).2 = [Opened; SELECT] /\
  ~ released (Delete 1 t).2.
Proof.
  cbv zeta. repeat split. intros [Hs _]. discriminate Hs.
Qed.

(** ** Rejected bodies *)

Section Validation_facts.

Variable float_validator : Json -> option float.
Variable str_validator : Json -> option string.

Lemma field_invalid_None (members : list (string * Json)) (key : string) :
  (field_invalid float_validator str_validator members (key, Float) = true ->
   field float_validator members key = None) /\
  (field_invalid float_validator str_validator members (key, Str) = true ->
   field str_validator members key = None).
Proof.
  unfold field_invalid, field, accepts. cbn [fst snd].
  destruct (dict_get key members) as [v|]; cbn; [|done].
  split; intros H; apply negb_true_iff, bool_decide_eq_false in H.
  - destruct (float_validator v); [|done]. destruct H. by eexists.
  - destruct (str_validator v); [|done]. destruct H. by eexists.
Qed.

Lemma validate_invalid (members : list (string * Json)) (f : string * FieldType) :
  f ∈ AddressCreate_fields ->
  field_invalid float_validator str_validator members f = true ->
  exists loc,
    AddressCreate_validate float_validator str_validator (JObject members)
    = inl (RequestValidationError loc).
Proof.
  intros Hf Hinv. unfold AddressCreate_validate, AddressCreate_fields in *.
  repeat (apply elem_of_cons in Hf as [->|Hf]);
    [..|by apply elem_of_nil in Hf];
    (apply (proj1 (field_invalid_None _ _)) in Hinv
     || apply (proj2 (field_invalid_None _ _)) in Hinv);
    rewrite Hinv;
    repeat match goal with
           | |- context [field ?v members ?k] => destruct (field v members k)
           end; by eexists.
Qed.

Lemma invalid_body_error (body : Json) :
  match body with
  | JObject members =>
      exists f, f ∈ AddressCreate_fields /\
                field_invalid float_validator str_validator members f = true
  | _ => True
  end ->
  exists loc, AddressCreate_validate float_validator str_validator body
              = inl (RequestValidationError loc).
Proof.
  intros Hbad. destruct body as [| | | | |members]; try (by eexists).
  destruct Hbad as (f & Hf & Hinv). by eapply validate_invalid.
Qed.

(** C8.  A body that is no object, or that lacks one of the seven fields or
    gives it a value its type does not validate, is answered with 422 and
    the names of the offending fields; the handler does not run, so no
    session is opened, nothing is asked of the data layer and the store is
    as it was. *)
Theorem invalid_body_rejected (body : Json) (t : Table) :
  match body with
  | JObject members =>
      exists f, f ∈ AddressCreate_fields /\
                field_invalid float_validator str_validator members f = true
  | _ => True
  end ->
  (exists loc, (POST_addresses float_validator str_validator body t).1
               = mkResponse 422 (Body_errors loc)) /\
  (POST_addresses float_validator str_validator body t).2 = fresh_frame t /\
  store_after (POST_addresses float_validator str_validator body t) = t /\
  sessions (POST_addresses float_validator str_validator body t).2 = [] /\
  trace (POST_addresses float_validator str_validator body t).2 = [].
Proof.
  intros Hbad. destruct (invalid_body_error body Hbad) as [loc Hloc].
  unfold POST_addresses, store_after. rewrite Hloc. cbn. eauto 10.
Qed.

End Validation_facts.

Example POST_valid_body :
  POST_addresses json_float json_str HQ_body [] = Create HQ [].
Proof. reflexivity. Qed.

Example POST_wrong_type :
  (POST_addresses json_float json_str
     (JObject [("latitude", JString "north"); ("zip_code", JNumber 10001%float)]) []).1
  = mkResponse 422 (Body_errors ["latitude"; "longitude"; "name"; "address";
                                 "city"; "state"; "zip_code"]).
Proof. reflexivity. Qed.

Lemma invalid_body_rejected_witness :
  (exists loc, (POST_addresses json_float json_str HQ_without_zip one_record).1
               = mkResponse 422 (Body_errors loc)) /\
  (POST_addresses json_float json_str HQ_without_zip one_record).2 = fresh_frame one_record /\
  store_after (POST_addresses json_float json_str HQ_without_zip one_record) = one_record /\
  sessions (POST_addresses json_float json_str HQ_without_zip one_record).2 = [] /\
  trace (POST_addresses json_float json_str HQ_without_zip one_record).2 = [].
Proof.
  apply (invalid_body_rejected json_float json_str HQ_without_zip one_record).
  exists ("zip_code", Str). split; [|reflexivity].
  do 6 apply list_elem_of_further. apply list_elem_of_here.
Defined.

(** * Further properties of the handlers *)

(** ** Lookups under the statements that write *)


Lemma select_update_other (pk other : Z) (row : Address.t) (t : Table) :
  other <> pk ->
  has_id pk row = true ->
  sql_select_by_id other (sql_update pk row t) = sql_select_by_id other t.
Proof.
  intros Hne Hrow. unfold sql_select_by_id, sql_update. f_equal.
  induction t as [|x t IH]; [done|].
  rewrite fmap_cons, !filter_cons, IH.
  destruct (has_id pk x) eqn:Hx; [|done].
  rewrite has_id_sqlite_row.
  apply has_id_inv in Hrow, Hx.
  assert (has_id other row = false) as Hr.
  { unfold has_id. rewrite Hrow. by apply Z.eqb_neq. }
  assert (has_id other x = false) as Hx'.
  { unfold has_id. rewrite Hx. by apply Z.eqb_neq. }
  rewrite !decide_False by congruence. done.
Qed.



(** ** What a write leaves alone *)



(** [update_address] writes the row of its identifier only: the store keeps
    its length, and a [Get] of any other identifier answers as before,
    whether or not the update found its record. *)
Theorem update_keeps_other_records (address_id other : Z) (a : AddressCreate.t)
        (t : Table) :
  other <> address_id ->
  length (store_after (Update address_id a t)) = length t /\
  (Get other (store_after (Update address_id a t))).1 = (Get other t).1.
Proof.
  intros Hne. rewrite Update_store.
  destruct (in_int64 address_id); [|done].
  destruct (sql_select_by_id address_id t) as [row|]; [|done].
  split; [apply length_fmap|].
  by rewrite !Get_response, select_update_other by (done || apply has_id_of_fields).
Qed.

Lemma update_keeps_other_records_witness :
  length (store_after (Update 1 Annex two_records)) = 2%nat /\
  (Get 2 (store_after (Update 1 Annex two_records))).1 = (Get 2 two_records).1.
Proof. apply (update_keeps_other_records 1 2 Annex two_records). lia. Defined.


(** [delete_address] never changes the store, whatever the identifier and
    the store: it sends no DELETE and no COMMIT, and a [Get] after it answers
    as a [Get] before it. *)
Theorem delete_changes_nothing (address_id : Z) (t : Table) :
  store_after (Delete address_id t) = t /\
  (Get address_id (store_after (Delete address_id t))).1 = (Get address_id t).1 /\
  forallb (fun ev => negb (is_write ev)) (trace (Delete address_id t).2) = true.
Proof.
  rewrite Delete_store. repeat split.
  lookup_cases address_id t.
  - by rewrite (Delete_found _ _ _ Hrange Hrow).
  - by rewrite (Delete_missing _ _ Hrange Hrow).
  - by rewrite (Delete_overflow _ _ Hrange).
Qed.



(** ** The shape of the stores the service writes *)

Lemma increasing_from_above (l : list Z) :
  forall lo y, increasing_from lo l = true -> y ∈ l -> lo < y.
Proof.
  induction l as [|x l IH]; intros lo y H Hy; [by apply elem_of_nil in Hy|].
  cbn in H. apply andb_true_iff in H as [Hx Hl]. apply Z.ltb_lt in Hx.
  apply elem_of_cons in Hy as [->|Hy]; [done|].
  specialize (IH x y Hl Hy). lia.
Qed.

Lemma increasing_from_weaken (l : list Z) (lo lo' : Z) :
  lo' <= lo -> increasing_from lo l = true -> increasing_from lo' l = true.
Proof.
  destruct l as [|x l]; [done|]. cbn. intros Hle H.
  apply andb_true_iff in H as [Hx Hl]. apply Z.ltb_lt in Hx.
  apply andb_true_iff. split; [apply Z.ltb_lt; lia | done].
Qed.

Lemma increasing_from_snoc (l : list Z) (x : Z) :
  forall lo,
    increasing_from lo l = true -> lo < x -> (forall y, y ∈ l -> y < x) ->
    increasing_from lo (l ++ [x]) = true.
Proof.
  induction l as [|y l IH]; intros lo H Hlo Hall; cbn.
  - apply andb_true_iff. split; [by apply Z.ltb_lt | done].
  - cbn in H. apply andb_true_iff in H as [Hy Hl]. rewrite Hy. cbn.
    apply IH; [done | apply Hall, list_elem_of_here |].
    intros z Hz. apply Hall. by apply list_elem_of_further.
Qed.

Lemma increasing_from_take (n : nat) (l : list Z) :
  forall lo, increasing_from lo l = true -> increasing_from lo (take n l) = true.
Proof.
  revert n. induction l as [|x l IH]; intros n lo H; [by destruct n|].
  destruct n as [|n]; [done|]. cbn in *.
  apply andb_true_iff in H as [Hx Hl]. rewrite Hx. cbn. by apply IH.
Qed.

Lemma increasing_from_drop (n : nat) (l : list Z) :
  forall lo, increasing_from lo l = true -> increasing_from lo (drop n l) = true.
Proof.
  revert n. induction l as [|x l IH]; intros n lo H; [by destruct n|].
  destruct n as [|n]; [done|]. cbn in *.
  apply andb_true_iff in H as [Hx Hl]. apply Z.ltb_lt in Hx.
  apply IH. apply (increasing_from_weaken l x lo); [lia | done].
Qed.

Lemma increasing_from_NoDup (l : list Z) :
  forall lo, increasing_from lo l = true -> NoDup l.
Proof.
  induction l as [|x l IH]; intros lo H; [constructor|].
  cbn in H. apply andb_true_iff in H as [_ Hl]. constructor; [|by eapply IH].
  intros Hx. pose proof (increasing_from_above l x x Hl Hx). lia.
Qed.

Lemma next_rowid_above (t : Table) (y : Z) :
  y ∈ rowid <$> t -> y < next_rowid t.
Proof.
  intros Hy. apply list_elem_of_fmap in Hy as (r & -> & Hr).
  destruct (max_rowid_bound t r Hr) as (m & Hm & Hle).
  unfold next_rowid. rewrite Hm. lia.
Qed.

Lemma next_rowid_positive (t : Table) :
  ids_ascending t = true -> 0 < next_rowid t.
Proof.
  unfold ids_ascending. intros H. destruct t as [|r t]; [done|].
  pose proof (increasing_from_above _ 0 (rowid r) H (list_elem_of_here _ _)).
  pose proof (next_rowid_above (r :: t) (rowid r) (list_elem_of_here _ _)). lia.
Qed.

Lemma ids_ascending_insert (row : Address.t) (t : Table) :
  rowid row = next_rowid t ->
  ids_ascending t = true -> ids_ascending (t ++ [row]) = true.
Proof.
  intros Hrow H. unfold ids_ascending. rewrite fmap_app. cbn [fmap list_fmap].
  rewrite Hrow. apply increasing_from_snoc;
    [done | by apply next_rowid_positive | apply next_rowid_above].
Qed.

Lemma ids_ascending_update (pk : Z) (row : Address.t) (t : Table) :
  has_id pk row = true ->
  ids_ascending t = true -> ids_ascending (sql_update pk row t) = true.
Proof.
  intros Hrow H. unfold ids_ascending, sql_update. rewrite <- list_fmap_compose.
  erewrite list_fmap_ext; [exact H|]. intros _ x _. cbn.
  destruct (has_id pk x) eqn:Hx; [|done].
  by rewrite rowid_sqlite_row, (has_id_rowid _ _ Hrow), (has_id_rowid _ _ Hx).
Qed.

(** Every request keeps the identifiers in ascending scan order. *)
Lemma ids_ascending_perform (r : Request) (t : Table) :
  ids_ascending t = true -> ids_ascending (store_after (perform r t)) = true.
Proof.
  intros H. destruct r as [a|skip limit|i|i a|i]; cbn [perform];
    rewrite ?Create_store, ?List_store, ?Get_store, ?Update_store, ?Delete_store;
    try done.
  - by apply ids_ascending_insert.
  - destruct (in_int64 i); [|done]. destruct (sql_select_by_id i t); [|done].
    apply ids_ascending_update; [apply has_id_of_fields | done].
Qed.

Lemma ids_ascending_run (reqs : list Request) :
  forall t, ids_ascending t = true -> ids_ascending (run reqs t) = true.
Proof.
  induction reqs as [|r reqs IH]; intros t H; [done|].
  apply IH. by apply ids_ascending_perform.
Qed.

Lemma complete_stored_row (pk : Z) (a : AddressCreate.t) :
  AddressCreate.storable a = true ->
  complete (sqlite_row (Address.of_fields pk a)) = true.
Proof. intros H. unfold complete. by rewrite (render_stored_row pk a H). Qed.

(** A request whose input has numbers for coordinates keeps every row one
    the response can carry. *)
Lemma complete_perform (r : Request) (t : Table) :
  request_storable r = true ->
  forallb complete t = true -> forallb complete (store_after (perform r t)) = true.
Proof.
  intros Hr H. destruct r as [a|skip limit|i|i a|i]; cbn [perform request_storable] in *;
    rewrite ?Create_store, ?List_store, ?Get_store, ?Update_store, ?Delete_store;
    try done.
  - rewrite forallb_app, H. cbn [forallb]. by rewrite complete_stored_row.
  - destruct (in_int64 i); [|done]. destruct (sql_select_by_id i t); [|done].
    unfold sql_update. apply forallb_forall. intros y Hy.
    apply list_elem_of_In, list_elem_of_fmap in Hy as (x & -> & Hx).
    destruct (has_id i x); [by apply complete_stored_row|].
    rewrite forallb_forall in H. by apply H, list_elem_of_In.
Qed.

Lemma well_formed_perform (r : Request) (t : Table) :
  request_storable r = true ->
  well_formed t = true -> well_formed (store_after (perform r t)) = true.
Proof.
  unfold well_formed. intros Hr H. apply andb_true_iff in H as [Hinc Hall].
  by rewrite ids_ascending_perform, complete_perform.
Qed.

Lemma well_formed_run (reqs : list Request) :
  forallb request_storable reqs = true ->
  forall t, well_formed t = true -> well_formed (run reqs t) = true.
Proof.
  induction reqs as [|r reqs IH]; intros Hall t H; [done|].
  cbn in Hall. apply andb_true_iff in Hall as [Hr Hall].
  apply (IH Hall). by apply well_formed_perform.
Qed.

Lemma well_formed_page (skip limit : Z) (t : Table) :
  well_formed t = true -> well_formed (sql_select_page skip limit t) = true.
Proof.
  assert (forall n (l : Table), well_formed l = true -> well_formed (take n l) = true) as Htake.
  { intros n l H. unfold well_formed, ids_ascending in *.
    apply andb_true_iff in H as [Hinc Hall]. apply andb_true_iff. split.
    - rewrite fmap_take. by apply increasing_from_take.
    - apply forallb_forall. intros y Hy. rewrite forallb_forall in Hall.
      apply Hall. apply list_elem_of_In. apply list_elem_of_In in Hy.
      by eapply (subseteq_take n l). }
  assert (forall n (l : Table), well_formed l = true -> well_formed (drop n l) = true) as Hdrop.
  { intros n l H. unfold well_formed, ids_ascending in *.
    apply andb_true_iff in H as [Hinc Hall]. apply andb_true_iff. split.
    - rewrite fmap_drop. by apply increasing_from_drop.
    - apply forallb_forall. intros y Hy. rewrite forallb_forall in Hall.
      apply Hall. apply list_elem_of_In. apply list_elem_of_In in Hy.
      by eapply (subseteq_drop n l). }
  intros H. unfold sql_select_page, sql_limit, sql_offset.
  destruct (skip <? 0), (limit <? 0); auto.
Qed.

Lemma well_formed_render (t : Table) :
  forallb complete t = true ->
  exists rs, from_orm_all t = Some rs /\ AddressResponse.id <$> rs = rowid <$> t.
Proof.
  induction t as [|row t IH]; intros H; [by exists []|].
  cbn in H. apply andb_true_iff in H as [Hrow Ht].
  destruct (IH Ht) as (rs & Hrs & Hids). unfold complete in Hrow.
  destruct (AddressResponse.render row) as [r|] eqn:Er; [|done].
  exists (r :: rs). cbn [from_orm_all]. rewrite Er, Hrs. split; [done|].
  rewrite !fmap_cons, Hids. f_equal. unfold rowid. by rewrite (render_id _ _ Er).
Qed.

Lemma ascending_nonpositive (address_id : Z) (t : Table) :
  ids_ascending t = true -> address_id <= 0 -> stored address_id t = false.
Proof.
  intros Hinc Hle. destruct (stored address_id t) eqn:E; [|done].
  apply existsb_exists in E as (r & Hr & Hid). apply has_id_rowid in Hid.
  apply list_elem_of_In in Hr.
  assert (rowid r ∈ rowid <$> t) as Hin by (apply list_elem_of_fmap; eauto).
  pose proof (increasing_from_above _ 0 _ Hinc Hin). lia.
Qed.

(** A request whose input, if it has one, has numbers for coordinates keeps
    the shape of a store with room for one more identifier: from a store
    with positive identifiers in ascending scan order and rows the response
    can carry, it leaves such a store, in which no two rows share an
    identifier. *)
Theorem requests_keep_shape (r : Request) (t : Table) :
  well_formed t = true ->
  request_storable r = true ->
  in_int64 (next_rowid t) = true ->
  well_formed (store_after (perform r t)) = true /\
  NoDup (rowid <$> store_after (perform r t)).
Proof.
  intros H Hr _. pose proof (well_formed_perform r t Hr H) as H'. split; [done|].
  unfold well_formed in H'. apply andb_true_iff in H' as [Hinc _].
  by eapply increasing_from_NoDup.
Qed.

Lemma requests_keep_shape_witness :
  well_formed (store_after (perform (DoUpdate 1 Annex) two_records)) = true /\
  NoDup (rowid <$> store_after (perform (DoUpdate 1 Annex) two_records)).
Proof.
  apply (requests_keep_shape (DoUpdate 1 Annex) two_records); reflexivity.
Defined.

(** In a store built from the empty one by requests whose inputs have
    numbers for coordinates, [List] does not fail to serialise: for every
    skip and limit in the signed 64-bit range, negative ones too, it answers
    200, and its records come in strictly ascending order of identifier,
    all positive and no two alike. *)
Theorem built_store_lists_in_id_order (reqs : list Request) (skip limit : Z) :
  forallb request_storable reqs = true ->
  in_int64 skip = true ->
  in_int64 limit = true ->
  exists rs,
    (List skip limit (run reqs [])).1 = mkResponse 200 (Body_addresses rs) /\
    increasing_from 0 (AddressResponse.id <$> rs) = true /\
    NoDup (AddressResponse.id <$> rs).
Proof.
  intros Hreqs Hs Hl.
  pose proof (well_formed_page skip limit _ (well_formed_run reqs Hreqs [] eq_refl)) as H.
  unfold well_formed in H. apply andb_true_iff in H as [Hinc Hall].
  destruct (well_formed_render _ Hall) as (rs & Hrs & Hids).
  exists rs. rewrite (List_run _ _ _ Hs Hl). cbn [fst]. unfold page_response.
  rewrite Hrs, Hids. split; [done|]. split; [done|].
  by eapply increasing_from_NoDup.
Qed.

Lemma built_store_lists_in_id_order_witness :
  exists rs,
    (List (-1) 5 (run [DoCreate HQ; DoUpdate 1 Equator; DoCreate Annex] [])).1
    = mkResponse 200 (Body_addresses rs) /\
    increasing_from 0 (AddressResponse.id <$> rs) = true /\
    NoDup (AddressResponse.id <$> rs).
Proof.
  apply (built_store_lists_in_id_order
           [DoCreate HQ; DoUpdate 1 Equator; DoCreate Annex] (-1) 5); reflexivity.
Defined.

(** In a store built from the empty one, no record has identifier zero or
    a negative one: [Get], [Update] and [Delete] of such an identifier, when
    it is in the signed 64-bit range, answer 404. *)
Theorem nonpositive_id_not_found (reqs : list Request) (address_id : Z)
        (a : AddressCreate.t) :
  - 2 ^ 63 <= address_id <= 0 ->
  (Get address_id (run reqs [])).1 = not_found /\
  (Update address_id a (run reqs [])).1 = not_found /\
  (Delete address_id (run reqs [])).1 = not_found.
Proof.
  intros Hle.
  assert (in_int64 address_id = true) as Hr by (apply in_int64_spec; lia).
  pose proof (absent_select _ _
                (ascending_nonpositive address_id _
                   (ids_ascending_run reqs [] eq_refl) (proj2 Hle))) as Hout.
  by rewrite (Get_missing _ _ Hr Hout), (Update_missing _ a _ Hr Hout),
    (Delete_missing _ _ Hr Hout).
Qed.

Lemma nonpositive_id_not_found_witness :
  (Get 0 (run [DoCreate HQ; DoCreate Annex] [])).1 = not_found /\
  (Update 0 HQ (run [DoCreate HQ; DoCreate Annex] [])).1 = not_found /\
  (Delete 0 (run [DoCreate HQ; DoCreate Annex] [])).1 = not_found.
Proof. apply (nonpositive_id_not_found [DoCreate HQ; DoCreate Annex] 0 HQ). lia. Defined.

(** ** Creation order and identifiers *)





(** ** Pages *)

Lemma from_orm_all_length (t : Table) :
  forall rs, from_orm_all t = Some rs -> length rs = length t.
Proof.
  induction t as [|row t IH]; intros rs H.
  - by injection H as <-.
  - cbn in H. destruct (AddressResponse.render row); [|done].
    destruct (from_orm_all t) as [rs'|]; [|done]. injection H as <-.
    cbn. by rewrite (IH rs').
Qed.

(** With a limit that is not negative, [List] never answers with more than
    [limit] records, whatever the skip, negative or not, and whatever the
    store holds. *)
Theorem list_never_exceeds_limit (skip limit : Z) (t : Table) :
  0 <= limit ->
  (length (records (List skip limit t).1) <= Z.to_nat limit)%nat.
Proof.
  intros Hlimit. destruct (in_int64 skip && in_int64 limit) eqn:E.
  - apply andb_true_iff in E as [Hs Hl]. rewrite (List_run _ _ _ Hs Hl).
    cbn [fst]. unfold page_response, records.
    destruct (from_orm_all (sql_select_page skip limit t)) as [rs|] eqn:Ers;
      cbn [body server_error length]; [|lia].
    rewrite (from_orm_all_length _ _ Ers). unfold sql_select_page, sql_limit.
    destruct (Z.ltb_spec limit 0); [lia|]. rewrite length_take. lia.
  - rewrite (List_overflow _ _ _ E). cbn. lia.
Qed.

Lemma list_never_exceeds_limit_witness :
  (length (records (List (-2) 3 eleven).1) <= Z.to_nat 3)%nat.
Proof. apply (list_never_exceeds_limit (-2) 3 eleven). lia. Defined.

(** A skip at or past the end of the store is no error: for a skip and a
    limit in the signed 64-bit range the answer is 200 with an empty list. *)
Theorem list_past_the_end_is_empty (skip limit : Z) (t : Table) :
  0 <= skip ->
  in_int64 skip = true ->
  in_int64 limit = true ->
  (length t <= Z.to_nat skip)%nat ->
  (List skip limit t).1 = mkResponse 200 (Body_addresses []).
Proof.
  intros Hskip Hs Hl Hlen. rewrite (List_run _ _ _ Hs Hl). cbn [fst].
  unfold page_response, sql_select_page, sql_limit, sql_offset.
  destruct (Z.ltb_spec skip 0); [lia|]. rewrite drop_ge by done.
  rewrite take_nil. by destruct (limit <? 0).
Qed.

Lemma list_past_the_end_is_empty_witness :
  (List 11 10 eleven).1 = mkResponse 200 (Body_addresses []).
Proof.
  apply (list_past_the_end_is_empty 11 10 eleven);
    [lia | reflexivity | reflexivity | vm_compute; lia].
Defined.

(** Consecutive pages fit together.  With a skip and two page sizes that are
    not negative and whose sum is in the signed 64-bit range, the page of
    [n] records after [skip] followed by the page of [m] records after
    [skip + n] is the page of [n + m] records after [skip]; no record is
    lost or given twice. *)
Theorem list_pages_compose (skip n m : Z) (t : Table) (rs : list AddressResponse.t) :
  from_orm_all t = Some rs ->
  0 <= skip -> 0 <= n -> 0 <= m ->
  skip + n + m < 2 ^ 63 ->
  records (List skip n t).1 ++ records (List (skip + n) m t).1
  = records (List skip (n + m) t).1.
Proof.
  intros Hrs Hskip Hn Hm Hsum.
  rewrite !(List_page _ _ _ _ Hrs) by (lia || (apply in_int64_spec; lia)).
  unfold records. cbn [body].
  rewrite !Z2Nat.inj_add by lia.
  rewrite <- (drop_drop rs (Z.to_nat n) (Z.to_nat skip)).
  apply take_take_drop.
Qed.

Lemma list_pages_compose_witness :
  records (List 2 3 eleven).1 ++ records (List (2 + 3) 4 eleven).1
  = records (List 2 (3 + 4) eleven).1.
Proof.
  apply (list_pages_compose 2 3 4 eleven (records_from 1 (replicate 11 HQ)));
    [reflexivity | lia | lia | lia | lia].
Defined.

(** ** Sessions *)

(** Every request opens exactly one session, and opening it is the first
    thing it does: this holds on every path, the one of [delete_address] that
    never closes its session included. *)
Theorem one_session_per_request (r : Request) (t : Table) :
  head (trace (perform r t).2) = Some Opened /\
  length (filter (fun ev => is_opened ev = true) (trace (perform r t).2)) = 1%nat /\
  length (sessions (perform r t).2) = 1%nat.
Proof.
  request_cases r t; try done.
  unfold update_trace. by destruct (Address.changed _ _).
Qed.

(** An update with the values the record has sends no UPDATE; one that
    changes a value sends it. *)
Example update_sends_what_changed :
  trace (Update 1 HQ one_record).2 = [Opened; SELECT; COMMIT; SELECT; Closed] /\
  trace (Update 1 Annex one_record).2
  = [Opened; SELECT; UPDATE 1; COMMIT; SELECT; Closed].
Proof. split; reflexivity. Qed.
(** ** Bodies of the update route, and bodies that validate *)

Section Validation_more.

Variable float_validator : Json -> option float.
Variable str_validator : Json -> option string.

(** [update_address] takes its body through the same validation as
    [create_address], and before the identifier is looked up: an invalid body
    is answered with 422, never 404, whether or not the identifier is in the
    store, and the handler does not run. *)
Theorem put_invalid_body_rejected (address_id : Z) (body : Json) (t : Table) :
  match body with
  | JObject members =>
      exists f, f ∈ AddressCreate_fields /\
                field_invalid float_validator str_validator members f = true
  | _ => True
  end ->
  (exists loc, (PUT_address float_validator str_validator address_id body t).1
               = mkResponse 422 (Body_errors loc)) /\
  (PUT_address float_validator str_validator address_id body t).2 = fresh_frame t.
Proof.
  intros Hbad.
  assert (exists loc, AddressCreate_validate float_validator str_validator body
                      = inl (RequestValidationError loc)) as [loc Hloc].
  { destruct body as [| | | | |members]; try (by eexists).
    destruct Hbad as (f & Hf & Hinv). by eapply validate_invalid. }
  unfold PUT_address. rewrite Hloc. cbn. eauto.
Qed.

(** Validation looks at the seven declared members and at nothing else: two
    bodies that agree on them validate alike. *)
Lemma validate_depends_on_fields (m1 m2 : list (string * Json)) :
  (forall key, key ∈ (AddressCreate_fields.*1) -> dict_get key m1 = dict_get key m2) ->
  AddressCreate_validate float_validator str_validator (JObject m1)
  = AddressCreate_validate float_validator str_validator (JObject m2).
Proof.
  intros H.
  unfold AddressCreate_validate, field, field_invalid, AddressCreate_fields.
  rewrite !filter_cons, !filter_nil. cbn [fst snd].
  rewrite !H
    by (cbn; repeat (first [apply list_elem_of_here | apply list_elem_of_further])).
  reflexivity.
Qed.

Lemma dict_get_other (key other : string) (v : Json) (members : list (string * Json)) :
  other <> key ->
  dict_get key ((other, v) :: members) = dict_get key members.
Proof.
  intros Hne. cbn [dict_get]. destruct (dict_get key members); [done|].
  by rewrite (proj2 (String.eqb_neq other key)).
Qed.

(** A member the model does not declare is ignored: adding it to the body
    changes neither the validated input nor the errors, so the request is
    served as without it. *)
Theorem undeclared_member_ignored (key : string) (v : Json)
        (members : list (string * Json)) (t : Table) :
  key ∉ (AddressCreate_fields.*1) ->
  AddressCreate_validate float_validator str_validator (JObject ((key, v) :: members))
  = AddressCreate_validate float_validator str_validator (JObject members) /\
  POST_addresses float_validator str_validator (JObject ((key, v) :: members)) t
  = POST_addresses float_validator str_validator (JObject members) t.
Proof.
  intros Hkey.
  assert (AddressCreate_validate float_validator str_validator (JObject ((key, v) :: members))
          = AddressCreate_validate float_validator str_validator (JObject members)) as H.
  { apply validate_depends_on_fields. intros k Hk. apply dict_get_other.
    intros ->. by apply Hkey. }
  split; [done|]. unfold POST_addresses. by rewrite H.
Qed.

Hypothesis float_of_number : forall x, float_validator (JNumber x) = Some x.
Hypothesis str_of_string : forall s, str_validator (JString s) = Some s.

(** With validators that take a JSON number as the float it is and a JSON
    string as the string it is, the JSON object of an input validates to
    that input, so the create and update routes serve it as [Create] and
    [Update] of the input. *)
Theorem valid_body_reaches_handler (a : AddressCreate.t) (address_id : Z) (t : Table) :
  AddressCreate_validate float_validator str_validator (AddressCreate_json a) = inr a /\
  POST_addresses float_validator str_validator (AddressCreate_json a) t = Create a t /\
  PUT_address float_validator str_validator address_id (AddressCreate_json a) t
  = Update address_id a t.
Proof.
  assert (AddressCreate_validate float_validator str_validator (AddressCreate_json a)
          = inr a) as H.
  { destruct a as [la lo n ad c s z].
    unfold AddressCreate_validate, AddressCreate_json, field. cbn.
    by rewrite !float_of_number, !str_of_string. }
  unfold POST_addresses, PUT_address. by rewrite H.
Qed.

End Validation_more.

Lemma put_invalid_body_rejected_witness :
  (exists loc, (PUT_address json_float json_str 99 HQ_without_zip one_record).1
               = mkResponse 422 (Body_errors loc)) /\
  (PUT_address json_float json_str 99 HQ_without_zip one_record).2
  = fresh_frame one_record.
Proof.
  apply (put_invalid_body_rejected json_float json_str 99 HQ_without_zip one_record).
  exists ("zip_code", Str). split; [|reflexivity].
  do 6 apply list_elem_of_further. apply list_elem_of_here.
Defined.

Lemma undeclared_member_ignored_witness :
  AddressCreate_validate json_float json_str
    (JObject [("country", JString "US"); ("latitude", JNumber 1%float)])
  = AddressCreate_validate json_float json_str (JObject [("latitude", JNumber 1%float)]) /\
  POST_addresses json_float json_str
    (JObject [("country", JString "US"); ("latitude", JNumber 1%float)]) one_record
  = POST_addresses json_float json_str (JObject [("latitude", JNumber 1%float)]) one_record.
Proof.
  apply (undeclared_member_ignored json_float json_str "country" (JString "US")
           [("latitude", JNumber 1%float)] one_record).
  intros H. cbn in H.
  repeat (apply elem_of_cons in H as [H|H]; [discriminate H|]).
  by apply elem_of_nil in H.
Defined.

Lemma valid_body_reaches_handler_witness :
  AddressCreate_validate json_float json_str (AddressCreate_json Annex) = inr Annex /\
  POST_addresses json_float json_str (AddressCreate_json Annex) one_record
  = Create Annex one_record /\
  PUT_address json_float json_str 1 (AddressCreate_json Annex) one_record
  = Update 1 Annex one_record.
Proof.
  apply (valid_body_reaches_handler json_float json_str
           (fun x => eq_refl) (fun s => eq_refl) Annex 1 one_record).
Defined.
